(** * surfdist.analysis: geodesic distance bookkeeping on a cortical surface

    A shallow embedding of [src/surfdist/analysis.py] ([dist_calc],
    [dist_calc_pairwise], [zone_calc], [dist_calc_matrix]) together with the
    index-translation helpers it imports from [surfdist.utils].

    Conventions of the embedding:
    - numpy integer arrays given by the caller (the cortex mask, source
      nodes, triangles of the full surface) are [list Z]; indices computed
      by the program itself (cortex-local indices, argsort output) are
      [nat];
    - floating point values are an abstract carrier [D] with a zero and a
      decidable order: this layer only copies, compares and takes minima
      of the values the solver returns.  The one place where the code
      rounds ([astype(np.float32)]) is kept as an explicit function;
    - a Python exception is a [Raise e] result in the monad [res];
    - the geodesic solver [gdist], [np.argsort] and the label reader are
      external: they are parameters of the sections below, and what is
      assumed about them is stated as a section hypothesis where needed;
    - [print] calls ([verbose]) are not modelled. *)

From Stdlib Require Import ZArith List Sorting.Permutation.
From Stdlib Require Import Floats.SpecFloat.
From stdpp Require Import base tactics decidable option numbers list strings sorting.

Local Open Scope Z_scope.

(** ** Exceptions *)

Inductive error : Set :=
  | InvalidMaskError
  | OutOfCortexError
  | IndexError
  | ValueError.

Inductive res (A : Type) : Type :=
  | Ok (a : A)
  | Raise (e : error).
Arguments Ok {A} a.
Arguments Raise {A} e.

Definition res_bind {A B} (f : A → res B) (m : res A) : res B :=
  match m with
  | Ok a => f a
  | Raise e => Raise e
  end.

#[global] Instance res_mret : MRet res := λ A a, Ok a.
#[global] Instance res_mbind : MBind res := λ A B f m, res_bind f m.

Definition raises {A} (m : res A) : Prop := ∃ e, m = Raise e.

(** [for x in xs: ys.append(f x)], stopping at the first exception. *)
Fixpoint for_each {A B} (f : A → res B) (xs : list A) : res (list B) :=
  match xs with
  | [] => Ok []
  | x :: xs' => y ← f x; ys ← for_each f xs'; mret (y :: ys)
  end.

(** ** Data model *)

Section Model.
Context {D : Type}.

Definition coord : Type := D * D * D.
Definition triangle : Type := Z * Z * Z.
Definition local_triangle : Type := nat * nat * nat.

(** [surf] is the tuple [(vertices, triangles)] of
    [nibabel.freesurfer.read_geometry]. *)
Definition surface : Type := list coord * list triangle.

(** A sparse matrix: its shape and its stored entries [(row, col, value)]. *)
Record sparse (I : Type) : Type := Sparse {
  shape : nat * nat;
  entries : list (I * I * D)
}.
Arguments Sparse {I} shape entries.
Arguments shape {I} s.
Arguments entries {I} s.

(** *** surfdist.utils *)

Fixpoint increasing (l : list Z) : bool :=
  match l with
  | x :: (y :: _) as t => (x <? y) && increasing t
  | _ => true
  end.

Definition in_range (n : nat) (v : Z) : bool :=
  (0 <=? v) && (v <? Z.of_nat n).

(** A well-formed cortex mask over a surface of [n] vertices: not empty,
    strictly increasing (sorted and without duplicates), every index in
    [0, n). *)
Definition mask_ok (n : nat) (mask : list Z) : bool :=
  negb (bool_decide (mask = [])) && increasing mask && forallb (in_range n) mask.

(** The inverse of the mask: the cortex-local index of a full-surface
    vertex, absent for a vertex outside the cortex. *)
Definition local_index (mask : list Z) (v : Z) : option nat :=
  fst <$> list_find (λ c, c = v) mask.

Definition remap_triangle (mask : list Z) (t : triangle) : option local_triangle :=
  let '(a, b, c) := t in
  a' ← local_index mask a;
  b' ← local_index mask b;
  c' ← local_index mask c;
  Some (a', b', c').

(** Modelled from the spec: [surf_keep_cortex] of [surfdist/utils.py],
    which is not among the sources.  Spec 4.1, [restrict_to_cortex]: the
    vertices restricted to the mask in the order of the mask, the
    triangles whose three vertices are all in the mask remapped to local
    indices; [InvalidMaskError] if the mask is empty, has duplicate or
    out-of-range indices, or is not sorted. *)
Definition surf_keep_cortex (surf : surface) (cortex : list Z)
    : res (list coord * list local_triangle) :=
  let '(vertices, triangles) := surf in
  if mask_ok (length vertices) cortex then
    Ok (omap (λ v, vertices !! Z.to_nat v) cortex,
        omap (remap_triangle cortex) triangles)
  else Raise InvalidMaskError.

(** Modelled from the spec: [translate_src] of [surfdist/utils.py], which
    is not among the sources.  Spec 4.1, [translate_source]: each
    full-surface index is sent through the inverse of the mask;
    [OutOfCortexError] if an index is not in the mask. *)
Definition translate_src (src : list Z) (cortex : list Z) : res (list nat) :=
  for_each (λ v, match local_index cortex v with
                 | Some i => Ok i
                 | None => Raise OutOfCortexError
                 end) src.

(** [data[idx] = values], pair by pair. *)
Definition scatter {A} (data : list A) (ps : list (Z * A)) : list A :=
  foldr (λ '(c, x) data, <[Z.to_nat c := x]> data) data ps.

(** Modelled from the spec: [recort] of [surfdist/utils.py], which is not
    among the sources.  Spec 4.2, [project_vector]: [input_data[i]] is
    scattered to position [cortex[i]] of a vector of the length of the
    full surface, every other position is the zero [z]. *)
Definition recort {A} (z : A) (input_data : list A) (surf : surface)
    (cortex : list Z) : list A :=
  scatter (replicate (length surf.1) z) (zip cortex input_data).

(** Modelled from the spec: [recort2d] of [surfdist/utils.py], which is
    not among the sources.  Spec 4.2, [project_matrix]: every stored entry
    [(i, j, v)] becomes [(cortex[i], cortex[j], v)] of an [n × n] sparse
    matrix; nothing else is stored. *)
Definition recort2d (data : sparse nat) (surf : surface) (cortex : list Z)
    : sparse Z :=
  let n := length surf.1 in
  Sparse (n, n)
    (omap (λ '(i, j, v),
             r ← cortex !! i; c ← cortex !! j; Some (r, c, v))
          (entries data)).

(** *** numpy *)

(** [np.array] of a list of rows: the rows must have one length. *)
Definition np_array {A} (rows : list (list A)) : res (list (list A)) :=
  match rows with
  | [] => Ok []
  | r :: _ =>
      if forallb (λ r', Nat.eqb (length r') (length r)) rows
      then Ok rows else Raise ValueError
  end.

(** [np.where(mask)[0]]: the positions that hold [True]. *)
Definition np_where (bs : list bool) : list nat :=
  omap (λ '(i, b), if b : bool then Some i else None) (imap pair bs).

(** [a[:, idx]] for a two-dimensional [a]: of every row, the columns
    [idx], in that order. *)
Definition take_columns {A} (a : list (list A)) (idx : list nat)
    : res (list (list A)) :=
  for_each (λ row,
    for_each (λ j, match row !! j with
                   | Some x => Ok x
                   | None => Raise IndexError
                   end) idx) a.

(** [a[x, :] = row] into a row of length [m]: the value must have length
    [m], or length 1, which numpy broadcasts. *)
Definition assign_row {A} (m : nat) (row : list A) : res (list A) :=
  if Nat.eqb (length row) m then Ok row
  else match row with
       | [x] => Ok (replicate m x)
       | _ => Raise ValueError
       end.

(** Column [j] of a two-dimensional array given by its rows. *)
Definition column {A} (j : nat) (a : list (list A)) : list A :=
  omap (λ row, row !! j) a.
End Model.

Arguments Sparse {D I} shape entries.
Arguments shape {D I} s.
Arguments entries {D I} s.

(** ** External collaborators *)

(** The floating point values: a zero ([np.zeros]) and the order that
    [np.min] and [np.argsort] compare with. *)
Class Num (D : Type) : Type := {
  zero : D;
  le : relation D;
  le_dec :: RelDecision le
}.

(** [gdist]: the single-source solver and the bounded all-pairs solver, on
    the vertices and triangles of the cortex. *)
Class Gdist (D : Type) : Type := {
  compute_gdist : list (@coord D) → list local_triangle → list nat → list D;
  local_gdist_matrix : list (@coord D) → list local_triangle → D → @sparse D nat
}.

(** [np.argsort] of a one-dimensional array, default [kind]. *)
Class Argsort (D : Type) : Type := {
  np_argsort : list D → list nat
}.

(** [ndarray.astype(np.float32)] on one value. *)
Class Float32 (D : Type) : Type := {
  astype_float32 : D → D
}.

(** [surfdist.load]: the label names of a label collection, and the
    vertices that carry a label. *)
Class LabelReader (L : Type) : Type := {
  get_freesurfer_label : L → list string;
  load_freesurfer_label : L → string → list Z
}.

(** ** surfdist.analysis *)

Section Analysis.
Context {D : Type} `{!Num D, !Gdist D, !Argsort D, !Float32 D}.
Context {L : Type} `{!LabelReader L}.

Definition dmin (a b : D) : D := if decide (le a b) then a else b.

(** [np.min] of a one-dimensional array; a zero-size array has no
    minimum. *)
Definition np_min (l : list D) : res D :=
  match l with
  | [] => Raise ValueError
  | x :: l' => Ok (foldl dmin x l')
  end.

Definition dist_calc (surf : surface) (cortex : list Z) (source_nodes : list Z)
    : res (list D) :=
  '(cortex_vertices, cortex_triangles) ← surf_keep_cortex surf cortex;
  translated_source_nodes ← translate_src source_nodes cortex;
  let data := compute_gdist cortex_vertices cortex_triangles translated_source_nodes in
  let dist := recort zero data surf cortex in
  mret dist.

Definition dist_calc_pairwise (surf : surface) (cortex : list Z) (maxdist : D)
    : res (sparse Z) :=
  '(cortex_vertices, cortex_triangles) ← surf_keep_cortex surf cortex;
  let m := local_gdist_matrix cortex_vertices cortex_triangles maxdist in
  let data := Sparse (shape m)
                (map (λ '(i, j, v), (i, j, astype_float32 v)) (entries m)) in
  let dist := recort2d data surf cortex in
  mret dist.

(** [np.argsort(a, axis=0)] for [a] of shape [(length a, m)]: column [j]
    of the result is the argsort of column [j] of [a]. *)
Definition argsort_axis0 (m : nat) (a : list (list D)) : list (list nat) :=
  let cols := map (λ j, np_argsort (column j a)) (seq 0 m) in
  map (λ i, omap (λ c : list nat, c !! i) cols) (seq 0 (length a)).

(** [a[0, :]]. *)
Definition row0 {A} (a : list (list A)) : res (list A) :=
  match a with
  | [] => Raise IndexError
  | r :: _ => Ok r
  end.

Definition zone_calc (surf : surface) (cortex : list Z)
    (source_nodes : list (list Z)) : res (list nat) :=
  '(cortex_vertices, cortex_triangles) ← surf_keep_cortex surf cortex;
  dist_vals ← for_each (λ source_nodes_x,
      translated_source_nodes ← translate_src source_nodes_x cortex;
      assign_row (length cortex_vertices)
        (compute_gdist cortex_vertices cortex_triangles translated_source_nodes))
    source_nodes;
  first ← row0 (argsort_axis0 (length cortex_vertices) dist_vals);
  let data := map S first in
  let zone := recort 0%nat data surf cortex in
  mret zone.

Definition default_exceptions : list string := ["Unknown"; "Medial_wall"]%string.

Definition dist_calc_matrix (surf : surface) (cortex : list Z) (labels : L)
    (exceptions : list string) : res (list (list D) * list string) :=
  '(cortex_vertices, cortex_triangles) ← surf_keep_cortex surf cortex;
  let label_list := get_freesurfer_label labels in
  let rs := np_where (map (λ a, bool_decide (a ∉ exceptions)) label_list) in
  let rois := omap (λ r, label_list !! r) rs in
  dist_roi ← for_each (λ roi,
      let source_nodes := load_freesurfer_label labels roi in
      translated_source_nodes ← translate_src source_nodes cortex;
      mret (compute_gdist cortex_vertices cortex_triangles translated_source_nodes))
    rois;
  dist_roi ← np_array dist_roi;
  dist_mat ← for_each (λ roi,
      let source_nodes := load_freesurfer_label labels roi in
      translated_source_nodes ← translate_src source_nodes cortex;
      cols ← take_columns dist_roi translated_source_nodes;
      for_each np_min cols)
    rois;
  dist_mat ← np_array dist_mat;
  mret (dist_mat, rois).
End Analysis.

(** ** What the solver and numpy are assumed to provide *)

(** The solver returns one distance per vertex (spec 6). *)
Class GdistLength (D : Type) `{!Gdist D} : Prop :=
  compute_gdist_length :
    ∀ vs ts src, length (compute_gdist vs ts src) = length vs.

(** ** Vocabulary of the specification *)

(** A mask that [restrict_to_cortex] must refuse: empty, with a duplicate,
    with an index outside [0, n), or not sorted. *)
Definition malformed (n : nat) (mask : list Z) : Prop :=
  mask = []
  ∨ ¬ NoDup mask
  ∨ (∃ v, v ∈ mask ∧ ¬ (0 ≤ v < Z.of_nat n))
  ∨ ¬ Sorted Z.le mask.

(** [np.argsort] returns the indices of its argument in an order that sorts
    it.  The default [kind] is not a stable sort: nothing is promised on the
    order of the indices of equal values. *)
Class ArgsortSpec (D : Type) `{!Num D, !Argsort D} : Prop := {
  np_argsort_perm : ∀ l : list D, np_argsort l ≡ₚ seq 0 (length l);
  np_argsort_sorted : ∀ (l : list D) i j a b x y,
    (i ≤ j)%nat →
    np_argsort l !! i = Some a → np_argsort l !! j = Some b →
    l !! a = Some x → l !! b = Some y → le x y
}.

(** What a stable sort ([kind='stable']) adds: the indices of equal values
    stay in increasing order. *)
Class ArgsortStable (D : Type) `{!Num D, !Argsort D} : Prop :=
  np_argsort_stable : ∀ (l : list D) i j a b x,
    (i < j)%nat →
    np_argsort l !! i = Some a → np_argsort l !! j = Some b →
    l !! a = Some x → l !! b = Some x → (a < b)%nat.

(** The array [dist_vals] of [zone_calc] when its loop is over: row [x] is
    the solver's field of seed set [x]. *)
Definition seed_fields {D} `{!Gdist D} (cortex_vertices : list (@coord D))
    (cortex_triangles : list local_triangle) (cortex : list Z)
    (source_nodes : list (list Z)) : res (list (list D)) :=
  for_each (λ source_nodes_x,
      translated_source_nodes ← translate_src source_nodes_x cortex;
      assign_row (length cortex_vertices)
        (compute_gdist cortex_vertices cortex_triangles translated_source_nodes))
    source_nodes.

(** Entry [(x, i)] of a two-dimensional array given by its rows. *)
Definition entry {A} (a : list (list A)) (x i : nat) : option A :=
  a !! x ≫= (λ row, row !! i).

(** The tie-break rule of spec 4.4 on one call of [zone_calc]: no seed set
    with a smaller index is as close to a cortex vertex as the one the
    vertex is assigned to. *)
Definition lowest_index_on_ties {D} `{!Num D, !Gdist D, !Argsort D}
    (surf : @surface D) (cortex : list Z) (seeds : list (list Z)) : Prop :=
  ∀ zone cv ct dist_vals,
    zone_calc surf cortex seeds = Ok zone →
    surf_keep_cortex surf cortex = Ok (cv, ct) →
    seed_fields cv ct cortex seeds = Ok dist_vals →
    ∀ i c a y d,
      cortex !! i = Some c → zone !! Z.to_nat c = Some (S a) →
      (y < a)%nat → entry dist_vals a i = Some d →
      entry dist_vals y i ≠ Some d.

(** [e] is the minimum of the values [l]. *)
Definition min_of {D} `{!Num D} (e : D) (l : list D) : Prop :=
  e ∈ l ∧ ∀ x, x ∈ l → le e x.

(** [dist_calc_matrix] with the default [exceptions]. *)
Definition dist_calc_matrix_default {D} `{!Num D, !Gdist D} {L}
    `{!LabelReader L} (surf : @surface D) (cortex : list Z) (labels : L)
    : res (list (list D) * list string) :=
  dist_calc_matrix surf cortex labels default_exceptions.

(** The bounded all-pairs solver against the geodesic distance [geo]
    (spec 6): an entry is stored only between two vertices of the mesh, its
    value is their distance, and that distance is at most
    [max_distance]. *)
Class GdistLocal (D : Type) `{!Num D, !Gdist D}
    (geo : list (@coord D) → list local_triangle → nat → nat → D) : Prop :=
  local_gdist_matrix_entry : ∀ vs ts maxdist i j v,
    (i, j, v) ∈ entries (local_gdist_matrix vs ts maxdist) →
    (i < length vs)%nat ∧ (j < length vs)%nat
    ∧ v = geo vs ts i j ∧ le v maxdist.

(** The bound of spec 8 on one call of [dist_calc_pairwise]: every stored
    value is at most [maxdist]. *)
Definition pairwise_bounded {D} `{!Num D, !Gdist D, !Float32 D}
    (surf : @surface D) (cortex : list Z) (maxdist : D) : Prop :=
  ∀ m r c w,
    dist_calc_pairwise surf cortex maxdist = Ok m →
    (r, c, w) ∈ entries m → le w maxdist.

(** ** Instances to run the code on *)

(** A solver that reads the distances off a given distance function: the
    field is the minimum over the sources, the bounded matrix holds the
    pairs of distinct vertices within [max_distance]. *)
Section ReferenceSolver.
Context {D : Type} `{!Num D}.
Context (geo : list (@coord D) → list local_triangle → nat → nat → D).

Definition solver_field (vs : list (@coord D)) (ts : list local_triangle)
    (src : list nat) : list D :=
  map (λ v, match src with
            | [] => zero
            | u :: us => foldl dmin (geo vs ts u v) (map (λ u', geo vs ts u' v) us)
            end)
      (seq 0 (length vs)).

Definition solver_matrix (vs : list (@coord D)) (ts : list local_triangle)
    (maxdist : D) : @sparse D nat :=
  let n := length vs in
  Sparse (n, n)
    (i ← seq 0 n; j ← seq 0 n;
     if decide (i ≠ j ∧ le (geo vs ts i j) maxdist)
     then [(i, j, geo vs ts i j)] else []).

Definition reference_solver : Gdist D :=
  {| compute_gdist := solver_field; local_gdist_matrix := solver_matrix |}.
End ReferenceSolver.

(** An argsort by insertion, from the last index to the first: index [a]
    goes in front of the first index [b] with [before l[a] l[b]]. *)
Section InsertionArgsort.
Context {D : Type} (before : D → D → bool).

Definition goes_before (l : list D) (a b : nat) : bool :=
  match l !! a, l !! b with
  | Some x, Some y => before x y
  | _, _ => true
  end.

Fixpoint insert_index (l : list D) (a : nat) (ord : list nat) : list nat :=
  match ord with
  | [] => [a]
  | b :: ord' =>
      if goes_before l a b then a :: b :: ord'
      else b :: insert_index l a ord'
  end.

Definition insertion_argsort (l : list D) : list nat :=
  foldr (insert_index l) [] (seq 0 (length l)).
End InsertionArgsort.

(** Equal values keep the order of their indices (a stable sort). *)
Definition argsort_stable {D} `{!Num D} : Argsort D :=
  {| np_argsort := insertion_argsort (λ x y, bool_decide (le x y)) |}.

(** *** Integer distances on a line *)

Module Line.
Definition num : Num Z := {| zero := 0; le := Z.le |}.

(** Vertices on the x axis: the distance between two of them. *)
Definition geo (vs : list (@coord Z)) (ts : list local_triangle)
    (u v : nat) : Z :=
  match vs !! u, vs !! v with
  | Some (xu, _, _), Some (xv, _, _) => Z.abs (xu - xv)
  | _, _ => 0
  end.

Definition solver : Gdist Z := @reference_solver Z num geo.
Definition argsort : Argsort Z := @argsort_stable Z num.

(** Three vertices at x = 0, 2, 1, one triangle, and a fourth vertex
    outside the cortex. *)
Definition surf : @surface Z :=
  ([(0, 0, 0); (2, 0, 0); (1, 0, 0); (5, 0, 0)], [(0, 1, 2); (1, 2, 3)]).
Definition cortex : list Z := [0; 1; 2].

(** Label collection: two regions, and the names left out by default. *)
Definition labels : LabelReader unit :=
  {| get_freesurfer_label := λ _, ["Unknown"; "left"; "Medial_wall"; "right"]%string;
     load_freesurfer_label := λ _ name,
       if decide (name = "left"%string) then [0]
       else if decide (name = "right"%string) then [1; 2]
       else [3] |}.

(** A label collection with a region that has no vertex. *)
Definition labels_hollow : LabelReader unit :=
  {| get_freesurfer_label := λ _, ["left"; "hollow"]%string;
     load_freesurfer_label := λ _ name,
       if decide (name = "left"%string) then [0] else [] |}.
End Line.

(** *** IEEE 754 binary64 values, and their rounding to binary32 *)

Module IEEE.
Definition binary64 (x : spec_float) : spec_float :=
  match x with
  | S754_finite s m e => binary_round 53 1024 s m e
  | _ => x
  end.

Definition binary32 (x : spec_float) : spec_float :=
  match x with
  | S754_finite s m e => binary_round 24 128 s m e
  | _ => x
  end.

Definition num : Num spec_float :=
  {| zero := S754_zero false;
     le := λ x y, SFleb x y = true;
     le_dec := λ x y, decide (SFleb x y = true) |}.

(** [astype(np.float32)]: round to nearest even in binary32; the result
    is written back as a binary64 value (exactly), the format [SFleb]
    compares in. *)
Definition float32 : Float32 spec_float :=
  {| astype_float32 := λ x, binary64 (binary32 x) |}.

(** Straight-line distance between two vertices, computed in binary64. *)
Definition sq (x : spec_float) : spec_float := SFmul 53 1024 x x.

Definition geo (vs : list (@coord spec_float)) (ts : list local_triangle)
    (u v : nat) : spec_float :=
  match vs !! u, vs !! v with
  | Some (xu, yu, zu), Some (xv, yv, zv) =>
      SFsqrt 53 1024
        (SFadd 53 1024
           (SFadd 53 1024 (sq (SFsub 53 1024 xu xv)) (sq (SFsub 53 1024 yu yv)))
           (sq (SFsub 53 1024 zu zv)))
  | _, _ => S754_zero false
  end.

Definition solver : Gdist spec_float := @reference_solver spec_float num geo.
Definition argsort : Argsort spec_float := @argsort_stable spec_float num.

(** The binary64 value nearest to 0.1, and 0. *)
Definition tenth : spec_float := S754_finite false 7205759403792794 (-56).
Definition f0 : spec_float := S754_zero false.

(** The binary64 value that follows [tenth]. *)
Definition above_tenth : spec_float := S754_finite false 7205759403792795 (-56).

(** One flat triangle with two sides of length 0.1. *)
Definition surf : @surface spec_float :=
  ([(f0, f0, f0); (tenth, f0, f0); (f0, tenth, f0)], [(0, 1, 2)]).
Definition cortex : list Z := [0; 1; 2].
End IEEE.

(** *** numpy's default sort *)

(** [np.argsort] with the default [kind='quicksort'] on an array of
    doubles, as [numpy/_core/src/npysort/quicksort.cpp] and [heapsort.cpp]
    have it ([aquicksort_], [aheapsort_]; the scalar code, not the SIMD
    dispatch).  The index array [tosort] starts as [0, 1, ..., n-1] and is
    sorted in place: a range [pl .. pr] with [pr - pl > 16] is partitioned
    around the median of its first, middle and last key, the larger part is
    pushed on a stack and the smaller one continued; a short range is
    sorted by insertion; a part popped from the stack with its depth budget
    spent is sorted by heapsort.  [less] is the comparison of the element
    type. *)
Module Npysort.
Section Sort.
Context {D : Type} (less : D → D → bool) (dflt : D).
Context (v : list D).

(** [v[i]] and [v[tosort[p]]]. *)
Definition value (i : nat) : D := default dflt (v !! i).
Definition key (tosort : list nat) (p : nat) : D :=
  value (default 0%nat (tosort !! p)).

(** [INTP_SWAP] of the entries at [p] and [q]. *)
Definition intp_swap (tosort : list nat) (p q : nat) : list nat :=
  match tosort !! p, tosort !! q with
  | Some a, Some b => <[p := b]> (<[q := a]> tosort)
  | _, _ => tosort
  end.

(** [do ++pi while less(v[tosort[pi]], vp)]. *)
Fixpoint scan_up (fuel : nat) (tosort : list nat) (vp : D) (pi : nat) : nat :=
  match fuel with
  | O => pi
  | S fuel' =>
      let pi := S pi in
      if less (key tosort pi) vp then scan_up fuel' tosort vp pi else pi
  end.

(** [do --pj while less(vp, v[tosort[pj]])]. *)
Fixpoint scan_down (fuel : nat) (tosort : list nat) (vp : D) (pj : nat) : nat :=
  match fuel with
  | O => pj
  | S fuel' =>
      let pj := Nat.pred pj in
      if less vp (key tosort pj) then scan_down fuel' tosort vp pj else pj
  end.

(** The partition loop: scan up, scan down, stop when [pi >= pj], else
    swap the entries at [pi] and [pj] and go on. *)
Fixpoint partition_loop (fuel : nat) (tosort : list nat) (vp : D)
    (pi pj : nat) : list nat * nat :=
  match fuel with
  | O => (tosort, pi)
  | S fuel' =>
      let pi := scan_up (length tosort) tosort vp pi in
      let pj := scan_down (length tosort) tosort vp pj in
      if (pj <=? pi)%nat then (tosort, pi)
      else partition_loop fuel' (intp_swap tosort pi pj) vp pi pj
  end.

(** One pass of [while ((pr - pl) > SMALL_QUICKSORT)]: the median of three
    goes to [pr - 1], the range is split around it, and it is put at its
    place [pi], which is returned. *)
Definition partition (tosort : list nat) (pl pr : nat) : list nat * nat :=
  let pm := (pl + (pr - pl) / 2)%nat in
  let tosort :=
    if less (key tosort pm) (key tosort pl) then intp_swap tosort pm pl
    else tosort in
  let tosort :=
    if less (key tosort pr) (key tosort pm) then intp_swap tosort pr pm
    else tosort in
  let tosort :=
    if less (key tosort pm) (key tosort pl) then intp_swap tosort pm pl
    else tosort in
  let vp := key tosort pm in
  let pj := (pr - 1)%nat in
  let tosort := intp_swap tosort pm pj in
  let '(tosort, pi) := partition_loop (length tosort) tosort vp pl pj in
  (intp_swap tosort pi (pr - 1), pi).

(** While [pj > pl] and [less(vp, v[tosort[pj - 1]])]: the entry at
    [pj - 1] moves to [pj], and [pj] goes down by one. *)
Fixpoint shift_up (fuel : nat) (tosort : list nat) (pl : nat) (vp : D)
    (pj : nat) : list nat * nat :=
  match fuel with
  | O => (tosort, pj)
  | S fuel' =>
      if (pl <? pj)%nat && less vp (key tosort (pj - 1)) then
        shift_up fuel'
          (<[pj := default 0%nat (tosort !! (pj - 1)%nat)]> tosort)
          pl vp (pj - 1)%nat
      else (tosort, pj)
  end.

(** The insertion sort of a short range: for [pi] from [pl + 1] to [pr],
    the index [vi] at [pi] is moved down past the larger keys. *)
Definition insert_one (pl : nat) (tosort : list nat) (pi : nat) : list nat :=
  let vi := default 0%nat (tosort !! pi) in
  let '(tosort, pj) := shift_up (length tosort) tosort pl (value vi) pi in
  <[pj := vi]> tosort.

Definition insertion_sort (tosort : list nat) (pl pr : nat) : list nat :=
  foldl (insert_one pl) tosort (seq (S pl) (pr - pl)).

(** [aheapsort_] on the [n] indices from [pl] on; [a = pl - 1], so that the
    heap is indexed from 1. *)
Definition heap_get (tosort : list nat) (pl i : nat) : nat :=
  default 0%nat (tosort !! (pl + i - 1)%nat).
Definition heap_set (tosort : list nat) (pl i x : nat) : list nat :=
  <[(pl + i - 1)%nat := x]> tosort.

(** Sifting [tmp] down from [i], with child [j]: while [j <= n], [j] is
    the child with the larger key; if [less(v[tmp], v[a[j]])] then [a[j]]
    moves up to [a[i]] and [i, j] become [j, 2 j], else stop; and
    [a[i] = tmp] at the end. *)
Fixpoint sift (fuel : nat) (tosort : list nat) (pl n tmp i j : nat)
    : list nat :=
  match fuel with
  | O => heap_set tosort pl i tmp
  | S fuel' =>
      if (j <=? n)%nat then
        let j :=
          if (j <? n)%nat
             && less (value (heap_get tosort pl j))
                     (value (heap_get tosort pl (j + 1)))
          then (j + 1)%nat else j in
        if less (value tmp) (value (heap_get tosort pl j)) then
          sift fuel' (heap_set tosort pl i (heap_get tosort pl j))
               pl n tmp j (j + j)%nat
        else heap_set tosort pl i tmp
      else heap_set tosort pl i tmp
  end.

(** For [l] from [n / 2] down to 1: [tmp = a[l]], sifted down from [l]. *)
Definition heapify (tosort : list nat) (pl n : nat) : list nat :=
  foldl (λ tosort l, sift n tosort pl n (heap_get tosort pl l) l (2 * l)%nat)
        tosort (reverse (seq 1 (n / 2))).

(** While [n > 1]: [tmp = a[n]], [a[n] = a[1]], [n] less one, and [tmp]
    sifted down from 1. *)
Fixpoint heap_extract (fuel : nat) (tosort : list nat) (pl n : nat)
    : list nat :=
  match fuel with
  | O => tosort
  | S fuel' =>
      if (1 <? n)%nat then
        let tmp := heap_get tosort pl n in
        let tosort := heap_set tosort pl n (heap_get tosort pl 1) in
        let n := (n - 1)%nat in
        heap_extract fuel' (sift n tosort pl n tmp 1 2) pl n
      else tosort
  end.

Definition aheapsort (tosort : list nat) (pl n : nat) : list nat :=
  heap_extract n (heapify tosort pl n) pl n.

(** The ranges [pl .. pr]: [popped] tells a range taken from the stack,
    for which the depth budget is checked, from the smaller part, which the
    inner loop goes on with.  Both parts get the budget less one. *)
Fixpoint sort_range (fuel : nat) (tosort : list nat) (pl pr : nat)
    (cdepth : Z) (popped : bool) : list nat :=
  match fuel with
  | O => tosort
  | S fuel' =>
      if popped && (cdepth <? 0) then aheapsort tosort pl (S pr - pl)
      else if (16 <? pr - pl)%nat then
        let '(tosort, pi) := partition tosort pl pr in
        let cdepth := cdepth - 1 in
        if (pi - pl <? pr - pi)%nat then
          let tosort := sort_range fuel' tosort pl (pi - 1) cdepth false in
          sort_range fuel' tosort (S pi) pr cdepth true
        else
          let tosort := sort_range fuel' tosort (S pi) pr cdepth false in
          sort_range fuel' tosort pl (pi - 1) cdepth true
      else insertion_sort tosort pl pr
  end.
End Sort.

(** [aquicksort_(v, tosort, num)] on [tosort = arange(num)], with the depth
    budget [2 * floor(log2 num)]. *)
Definition aquicksort {D} (less : D → D → bool) (dflt : D) (v : list D)
    : list nat :=
  let num := length v in
  match num with
  | O => []
  | S _ =>
      sort_range less dflt v (S num) (seq 0 num) 0 (num - 1)
        (2 * Z.log2 (Z.of_nat num)) true
  end.
End Npysort.

(** *** Runs in binary64 *)

Module Float.
(** [npy::double_tag::less]: the order of doubles, a NaN after the rest. *)
Definition is_nan (x : spec_float) : bool :=
  match x with S754_nan => true | _ => false end.
Definition less (x y : spec_float) : bool :=
  SFltb x y || (is_nan y && negb (is_nan x)).

Definition argsort : Argsort spec_float :=
  {| np_argsort := Npysort.aquicksort less (S754_zero false) |}.

Definition of_Z (z : Z) : spec_float := binary_normalize 53 1024 z 0 false.
Definition f0 : spec_float := S754_zero false.
Definition f1 : spec_float := of_Z 1.
Definition f2 : spec_float := of_Z 2.

(** One flat triangle: vertex 1 at distance 1 and vertex 2 at distance 2
    from vertex 0. *)
Definition wedge : @surface spec_float :=
  ([(f0, f0, f0); (f1, f0, f0); (f0, f2, f0)], [(0, 1, 2)]).
Definition wedge_cortex : list Z := [0; 1; 2].

(** Twenty seed sets: the 2nd and the 10th are vertex 1, the others are
    vertex 2. *)
Definition wedge_seeds : list (list Z) :=
  [2] :: [1] :: replicate 7 [2] ++ [1] :: replicate 10 [2].




End Float.


(** The solver returns a distance of zero at each of its sources. *)
Class GdistSources (D : Type) `{!Num D, !Gdist D} : Prop :=
  compute_gdist_source : ∀ vs ts src v,
    v ∈ src → (v < length vs)%nat → compute_gdist vs ts src !! v = Some zero.

(** * Properties *)

(** ** The exception monad *)

Lemma bind_Ok {A B} (f : A → res B) (m : res A) (b : B) :
  m ≫= f = Ok b ↔ ∃ a, m = Ok a ∧ f a = Ok b.
Proof.
  destruct m as [a|e]; simpl; split.
  - eauto.
  - by intros (a' & [= ->] & ?).
  - done.
  - by intros (? & ? & ?).
Qed.

Lemma bind_Raise {A B} (f : A → res B) (m : res A) (e : error) :
  m = Raise e → m ≫= f = Raise e.
Proof. by intros ->. Qed.

(** Inversion of a successful run of a sequence of binds. *)
Ltac res_inv H :=
  repeat match type of H with
  | Ok _ = Ok _ => injection H as H; subst
  | mret _ = Ok _ => injection H as H; subst
  | Raise _ = Ok _ => discriminate H
  | _ ≫= _ = Ok _ =>
      let a := fresh "a" in
      let Ha := fresh "Hrun" in
      apply bind_Ok in H as (a & Ha & H)
  end.

Lemma for_each_Ok {A B} (f : A → res B) xs ys :
  for_each f xs = Ok ys ↔ Forall2 (λ x y, f x = Ok y) xs ys.
Proof.
  revert ys. induction xs as [|x xs IH]; intros ys; simpl.
  - split; [intros [= <-]; constructor | by inversion 1].
  - split.
    + intros H. res_inv H. constructor; [done | by apply IH].
    + inversion 1 as [|? y ? ys' Hy Hys]; subst.
      rewrite Hy. simpl. apply IH in Hys. by rewrite Hys.
Qed.

Lemma for_each_length {A B} (f : A → res B) xs ys :
  for_each f xs = Ok ys → length ys = length xs.
Proof. intros H%for_each_Ok. symmetry. by eapply Forall2_length. Qed.

Lemma for_each_lookup {A B} (f : A → res B) xs ys i x :
  for_each f xs = Ok ys → xs !! i = Some x →
  ∃ y, ys !! i = Some y ∧ f x = Ok y.
Proof.
  intros H%for_each_Ok Hx.
  destruct (Forall2_lookup_l _ _ _ _ _ H Hx) as (y & ? & ?). eauto.
Qed.

Lemma for_each_lookup_r {A B} (f : A → res B) xs ys i y :
  for_each f xs = Ok ys → ys !! i = Some y →
  ∃ x, xs !! i = Some x ∧ f x = Ok y.
Proof.
  intros H%for_each_Ok Hy.
  destruct (Forall2_lookup_r _ _ _ _ _ H Hy) as (x & ? & ?). eauto.
Qed.

(** The loop raises what its first failing iteration raises. *)
Lemma for_each_Raise {A B} (f : A → res B) xs1 x xs2 ys1 e :
  for_each f xs1 = Ok ys1 → f x = Raise e →
  for_each f (xs1 ++ x :: xs2) = Raise e.
Proof.
  revert ys1. induction xs1 as [|x1 xs1 IH]; intros ys1 H1 Hx; simpl.
  - by rewrite Hx.
  - simpl in H1. res_inv H1. rewrite Hrun. simpl.
    by rewrite (IH _ Hrun0 Hx).
Qed.

Lemma for_each_total {A B} (f : A → res B) xs :
  (∀ x, x ∈ xs → ∃ y, f x = Ok y) → ∃ ys, for_each f xs = Ok ys.
Proof.
  induction xs as [|x xs IH]; intros H; simpl; [eauto|].
  destruct (H x) as [y ->]; [left|]. simpl.
  destruct IH as [ys ->]; [intros; apply H; by right|]. simpl. eauto.
Qed.

(** ** The cortex mask *)

Lemma increasing_sorted (l : list Z) :
  increasing l = true ↔ StronglySorted Z.lt l.
Proof.
  split.
  - induction l as [|x [|y l] IH]; intros H.
    + constructor.
    + repeat constructor.
    + simpl in H. apply andb_prop in H as [Hxy Hl].
      apply Z.ltb_lt in Hxy. specialize (IH Hl).
      constructor; [done|].
      apply StronglySorted_inv in IH as [_ Hy].
      constructor; [done|].
      eapply Forall_impl; [exact Hy|]. simpl. lia.
  - induction 1 as [|x l Hl IH Hx]; [done|].
    destruct l as [|y l]; [done|]. simpl.
    apply andb_true_intro. split; [|done].
    apply Z.ltb_lt. by inversion Hx.
Qed.

Lemma increasing_lookup_lt (l : list Z) i j x y :
  increasing l = true → l !! i = Some x → l !! j = Some y →
  (i < j)%nat → x < y.
Proof.
  intros H%increasing_sorted. revert i j.
  induction H as [|a l Hl IH Ha]; intros i j Hi Hj Hij; [done|].
  destruct j as [|j]; [lia|]. simpl in Hj.
  destruct i as [|i]; simpl in Hi.
  - injection Hi as ->. rewrite Forall_forall in Ha.
    apply Ha. by eapply list_elem_of_lookup_2.
  - eapply IH; eauto. lia.
Qed.

Lemma increasing_lookup_inj (l : list Z) i j x :
  increasing l = true → l !! i = Some x → l !! j = Some x → i = j.
Proof.
  intros H Hi Hj.
  destruct (Nat.lt_trichotomy i j) as [Hlt|[->|Hlt]]; [|done|].
  - pose proof (increasing_lookup_lt _ _ _ _ _ H Hi Hj Hlt). lia.
  - pose proof (increasing_lookup_lt _ _ _ _ _ H Hj Hi Hlt). lia.
Qed.

Lemma increasing_NoDup (l : list Z) : increasing l = true → NoDup l.
Proof.
  intros H. apply NoDup_alt. intros i j x. by apply increasing_lookup_inj.
Qed.

Lemma mask_ok_inv n (mask : list Z) :
  mask_ok n mask = true →
  mask ≠ [] ∧ increasing mask = true ∧ Forall (λ v, 0 ≤ v < Z.of_nat n) mask.
Proof.
  unfold mask_ok. intros H.
  apply andb_prop in H as [H Hr]. apply andb_prop in H as [Hne Hinc].
  split_and!; [|done|].
  - apply negb_true_iff, bool_decide_eq_false in Hne. done.
  - apply Forall_forall. intros v Hv.
    rewrite forallb_forall in Hr. apply list_elem_of_In, Hr in Hv.
    unfold in_range in Hv. apply andb_prop in Hv as [?%Z.leb_le ?%Z.ltb_lt]. lia.
Qed.

Lemma local_index_Some (mask : list Z) v i :
  local_index mask v = Some i → mask !! i = Some v.
Proof.
  unfold local_index. intros H.
  apply fmap_Some in H as ([i' x] & Hf & ->).
  apply list_find_Some in Hf as (? & -> & _). done.
Qed.

Lemma local_index_None (mask : list Z) v :
  local_index mask v = None ↔ v ∉ mask.
Proof.
  unfold local_index. rewrite fmap_None, list_find_None, Forall_forall.
  split.
  - intros H Hin. by apply (H v).
  - intros H x Hx ->. done.
Qed.

Lemma local_index_lookup (mask : list Z) i v :
  increasing mask = true → mask !! i = Some v → local_index mask v = Some i.
Proof.
  intros Hinc Hi.
  destruct (local_index mask v) as [j|] eqn:Hj.
  - apply local_index_Some in Hj. f_equal. by eapply increasing_lookup_inj.
  - apply local_index_None in Hj. destruct Hj. by eapply list_elem_of_lookup_2.
Qed.

Lemma mask_ok_well_formed n (mask : list Z) :
  mask_ok n mask = true → ¬ malformed n mask.
Proof.
  intros (Hne & Hinc & Hr)%mask_ok_inv [H|[H|[H|H]]].
  - done.
  - by apply H, increasing_NoDup.
  - destruct H as (v & Hv & Hout). rewrite Forall_forall in Hr. by apply Hout, Hr.
  - apply H. apply increasing_sorted, StronglySorted_Sorted in Hinc.
    clear -Hinc. induction Hinc as [|x l Hl IH Hx]; constructor; [done|].
    destruct Hx; constructor. lia.
Qed.

Lemma malformed_not_ok n (mask : list Z) :
  malformed n mask → mask_ok n mask = false.
Proof.
  intros H. destruct (mask_ok n mask) eqn:Hok; [|done].
  by apply mask_ok_well_formed in Hok.
Qed.

Lemma translate_src_Raise (src cortex : list Z) e :
  translate_src src cortex = Raise e → e = OutOfCortexError.
Proof.
  unfold translate_src. induction src as [|v src IH]; simpl; [done|].
  destruct (local_index cortex v); simpl; [|by intros [= <-]].
  destruct (for_each _ src) eqn:Hs; simpl; [done|].
  intros [= <-]. by apply IH.
Qed.

Lemma translate_src_out (src cortex : list Z) v :
  v ∈ src → v ∉ cortex → translate_src src cortex = Raise OutOfCortexError.
Proof.
  intros Hin Hout.
  destruct (translate_src src cortex) as [l|e] eqn:Ht.
  - apply list_elem_of_lookup in Hin as [i Hi].
    destruct (for_each_lookup _ _ _ _ _ Ht Hi) as (j & _ & Hj).
    apply local_index_None in Hout. by rewrite Hout in Hj.
  - by apply translate_src_Raise in Ht as ->.
Qed.

Lemma translate_src_lookup (src cortex : list Z) l k i :
  translate_src src cortex = Ok l → l !! k = Some i →
  ∃ v, src !! k = Some v ∧ cortex !! i = Some v.
Proof.
  intros Ht Hk.
  destruct (for_each_lookup_r _ _ _ _ _ Ht Hk) as (v & Hv & Hf).
  exists v. split; [done|].
  destruct (local_index cortex v) eqn:Hl; [|done].
  injection Hf as ->. by apply local_index_Some.
Qed.

Lemma translate_src_total (src cortex : list Z) :
  (∀ v, v ∈ src → v ∈ cortex) → ∃ l, translate_src src cortex = Ok l.
Proof.
  intros H. apply for_each_total. intros v Hv.
  destruct (local_index cortex v) eqn:Hl; [eauto|].
  apply local_index_None in Hl. destruct Hl. by apply H.
Qed.

(** A loop whose iterations can only raise [e], and one of which does. *)
Lemma for_each_Raise_elem {A B} (f : A → res B) xs x e :
  x ∈ xs → f x = Raise e →
  (∀ x' e', f x' = Raise e' → e' = e) →
  for_each f xs = Raise e.
Proof.
  intros Hin Hx Honly.
  induction xs as [|x1 xs IH]; [by apply elem_of_nil in Hin|]. simpl.
  destruct (f x1) as [y|e1] eqn:H1; simpl.
  - apply elem_of_cons in Hin as [->|Hin]; [congruence|].
    by rewrite (IH Hin).
  - by rewrite (Honly _ _ H1).
Qed.

Lemma surf_keep_cortex_Ok {D} (surf : @surface D) cortex :
  mask_ok (length surf.1) cortex = true →
  surf_keep_cortex surf cortex =
    Ok (omap (λ v, surf.1 !! Z.to_nat v) cortex,
        omap (remap_triangle cortex) surf.2).
Proof. destruct surf as [vs ts]. simpl. by intros ->. Qed.

Lemma surf_keep_cortex_inv {D} (surf : @surface D) cortex cv ct :
  surf_keep_cortex surf cortex = Ok (cv, ct) →
  mask_ok (length surf.1) cortex = true ∧ length cv = length cortex.
Proof.
  destruct surf as [vs ts]. simpl.
  destruct (mask_ok (length vs) cortex) eqn:Hok; [|done].
  intros [= <- <-]. split; [done|].
  apply mask_ok_inv in Hok as (_ & _ & Hr).
  clear -Hr. induction Hr as [|v l Hv Hl IH]; [done|]. cbn.
  destruct (vs !! Z.to_nat v) eqn:Hlk; cbn; [by f_equal|].
  apply lookup_ge_None in Hlk. lia.
Qed.

(** [rois]: the names kept by [np.where] are the names a filter keeps. *)
Lemma np_where_select_aux {A} (P : A → Prop) `{!∀ a, Decision (P a)}
    (pre l : list A) :
  omap (λ r, (pre ++ l) !! r)
    (omap (λ '(i, b), if b : bool then Some i else None)
       (imap (λ i, pair (length pre + i)%nat) (map (λ a, bool_decide (P a)) l)))
  = filter P l.
Proof.
  revert pre. induction l as [|x l IH]; intros pre; [done|].
  cbn [map]. rewrite imap_cons. cbn [omap list_omap].
  assert (omap (λ r, (pre ++ x :: l) !! r)
            (omap (λ '(i, b), if b : bool then Some i else None)
               (imap ((λ i, pair (length pre + i)%nat) ∘ S)
                  (map (λ a, bool_decide (P a)) l))) = filter P l) as Htl.
  { rewrite <- (IH (pre ++ [x])). rewrite <- (assoc_L (++)). cbn [app].
    f_equal. f_equal. apply imap_ext. intros i b _. cbn.
    rewrite length_app. cbn. f_equal. lia. }
  rewrite filter_cons. destruct (decide (P x)) as [HP|HP].
  - rewrite (bool_decide_eq_true_2 _ HP). cbn [omap list_omap].
    rewrite Nat.add_0_r, list_lookup_middle by done. by rewrite Htl.
  - rewrite (bool_decide_eq_false_2 _ HP). done.
Qed.

Lemma np_where_select {A} (P : A → Prop) `{!∀ a, Decision (P a)} (l : list A) :
  omap (λ r, l !! r) (np_where (map (λ a, bool_decide (P a)) l)) = filter P l.
Proof. apply (np_where_select_aux P [] l). Qed.

Section Errors.
Context {D : Type} `{!Num D, !Gdist D, !Argsort D, !Float32 D}.
Context {L : Type} `{!LabelReader L}.

(** C8.  A surface restricted to a mask that is empty, has a duplicate
    or an out-of-range index, or is not sorted raises [InvalidMaskError]:
    in [surf_keep_cortex] itself, and so in [dist_calc],
    [dist_calc_pairwise], [zone_calc] and [dist_calc_matrix], which all
    start with that call. *)
Theorem invalid_mask_raises (surf : surface) (cortex : list Z) :
  malformed (length surf.1) cortex →
  surf_keep_cortex surf cortex = Raise InvalidMaskError
  ∧ (∀ src, dist_calc surf cortex src = Raise InvalidMaskError)
  ∧ (∀ maxdist, dist_calc_pairwise surf cortex maxdist = Raise InvalidMaskError)
  ∧ (∀ seeds, zone_calc surf cortex seeds = Raise InvalidMaskError)
  ∧ (∀ (labels : L) exceptions,
       dist_calc_matrix surf cortex labels exceptions = Raise InvalidMaskError).
Proof.
  intros Hbad%malformed_not_ok.
  assert (surf_keep_cortex surf cortex = Raise InvalidMaskError) as Hk.
  { destruct surf as [vs ts]. simpl in *. by rewrite Hbad. }
  split_and!; [done|..]; intros;
    unfold dist_calc, dist_calc_pairwise, zone_calc, dist_calc_matrix;
    by rewrite Hk.
Qed.

(** C7.  Source nodes with an index outside the mask make the
    translation raise [OutOfCortexError]; with a well-formed mask the
    three callers raise it too (in [zone_calc] the solver is assumed to
    return one distance per vertex, so that the rows of earlier seed sets
    are stored without error). *)
Theorem out_of_cortex_raises (surf : surface) (cortex src : list Z) :
  (∃ v, v ∈ src ∧ v ∉ cortex) →
  translate_src src cortex = Raise OutOfCortexError
  ∧ (mask_ok (length surf.1) cortex = true →
     dist_calc surf cortex src = Raise OutOfCortexError
     ∧ (∀ seeds, GdistLength D → src ∈ seeds →
          zone_calc surf cortex seeds = Raise OutOfCortexError)
     ∧ (∀ (labels : L) exceptions roi,
          roi ∈ get_freesurfer_label labels → roi ∉ exceptions →
          load_freesurfer_label labels roi = src →
          dist_calc_matrix surf cortex labels exceptions = Raise OutOfCortexError)).
Proof.
  intros (v & Hin & Hout).
  pose proof (translate_src_out _ _ _ Hin Hout) as Ht.
  split; [done|]. intros Hok.
  pose proof (surf_keep_cortex_Ok _ _ Hok) as Hk.
  split_and!.
  - unfold dist_calc. rewrite Hk. cbn. by rewrite Ht.
  - intros seeds Hlen Hs. unfold zone_calc. rewrite Hk. cbn.
    erewrite for_each_Raise_elem; [done|exact Hs|..].
    + by rewrite Ht.
    + intros s e He.
      destruct (translate_src s cortex) as [l|e1] eqn:Hts; cbn in He.
      * unfold assign_row in He. rewrite compute_gdist_length in He.
        by rewrite Nat.eqb_refl in He.
      * injection He as <-. by eapply translate_src_Raise.
  - intros labels exceptions roi Hroi Hexc Hload.
    unfold dist_calc_matrix. rewrite Hk. cbn.
    rewrite (np_where_select (λ a, a ∉ exceptions)).
    erewrite for_each_Raise_elem; [done|..].
    + apply list_elem_of_filter. split; [exact Hexc|exact Hroi].
    + cbn. by rewrite Hload, Ht.
    + intros r e He. cbn in He.
      destruct (translate_src (load_freesurfer_label labels r) cortex)
        as [l|e1] eqn:Hts; cbn in He; [done|].
      injection He as <-. by eapply translate_src_Raise.
Qed.

(** C9.  With no seed set at all [zone_calc] raises: [dist_vals] has no
    row, and row 0 of its argsort is an [IndexError] (after the mask was
    accepted; a malformed mask is refused before). *)
Theorem zone_calc_no_seeds (surf : surface) (cortex : list Z) :
  zone_calc surf cortex [] =
    Raise (if mask_ok (length surf.1) cortex then IndexError
           else InvalidMaskError).
Proof.
  unfold zone_calc. destruct surf as [vs ts]. cbn.
  by destruct (mask_ok (length vs) cortex).
Qed.
End Errors.

(** ** Projection back to the full surface *)

Section Scatter.
Context {A : Type}.
Implicit Types (data init : list A) (ps : list (Z * A)).

Lemma scatter_cons init c x ps :
  scatter init ((c, x) :: ps) = <[Z.to_nat c := x]> (scatter init ps).
Proof. done. Qed.

Lemma scatter_length init ps : length (scatter init ps) = length init.
Proof.
  induction ps as [|[c x] ps IH]; [done|].
  by rewrite scatter_cons, length_insert.
Qed.

Lemma scatter_lookup_other init ps p :
  (∀ c x, (c, x) ∈ ps → Z.to_nat c ≠ p) →
  scatter init ps !! p = init !! p.
Proof.
  induction ps as [|[c x] ps IH]; intros H; [done|]. rewrite scatter_cons.
  rewrite list_lookup_insert_ne by (apply (H c x); left).
  apply IH. intros c' x' Hin. apply (H c' x'). by right.
Qed.

Lemma scatter_lookup init (mask : list Z) (f : list A) i c x :
  StronglySorted Z.lt mask →
  Forall (λ v, 0 ≤ v < Z.of_nat (length init)) mask →
  mask !! i = Some c → f !! i = Some x →
  scatter init (zip mask f) !! Z.to_nat c = Some x.
Proof.
  intros Hs. revert f i.
  induction Hs as [|c0 mask Hs IH Hc0]; intros f i Hr Hi Hx; [done|].
  apply Forall_cons in Hr as [Hr0 Hr].
  destruct f as [|x0 f]; [done|].
  change (zip (c0 :: mask) (x0 :: f)) with ((c0, x0) :: zip mask f).
  rewrite scatter_cons.
  destruct i as [|i]; cbn in Hi, Hx.
  - injection Hi as ->. injection Hx as ->.
    apply list_lookup_insert_eq. rewrite scatter_length. lia.
  - assert (c0 < c) as Hlt.
    { rewrite Forall_forall in Hc0. apply Hc0.
      by eapply list_elem_of_lookup_2. }
    rewrite list_lookup_insert_ne by lia. by eapply IH.
Qed.
End Scatter.

Section Projection.
Context {D : Type} `{!Num D, !Gdist D, !Argsort D, !Float32 D}.

Lemma dist_calc_Ok (surf : surface) (cortex src : list Z) (dist : list D) :
  dist_calc surf cortex src = Ok dist →
  ∃ cv ct tsn,
    surf_keep_cortex surf cortex = Ok (cv, ct)
    ∧ translate_src src cortex = Ok tsn
    ∧ dist = recort zero (compute_gdist cv ct tsn) surf cortex.
Proof.
  unfold dist_calc. intros H. res_inv H. destruct a as [cv ct].
  res_inv H. exists cv, ct, a. done.
Qed.

Lemma zone_calc_Ok (surf : surface) (cortex : list Z) seeds (zone : list nat) :
  zone_calc surf cortex seeds = Ok zone →
  ∃ cv ct dist_vals first,
    surf_keep_cortex surf cortex = Ok (cv, ct)
    ∧ for_each (λ s, tsn ← translate_src s cortex;
                     assign_row (length cv) (compute_gdist cv ct tsn)) seeds
      = Ok dist_vals
    ∧ row0 (argsort_axis0 (length cv) dist_vals) = Ok first
    ∧ zone = recort 0%nat (map S first) surf cortex.
Proof.
  unfold zone_calc. intros H. res_inv H. destruct a as [cv ct].
  res_inv H. exists cv, ct, a, a0. done.
Qed.

Lemma recort_spec {A} (z : A) (f : list A) (surf : @surface D)
    (cortex : list Z) :
  mask_ok (length surf.1) cortex = true →
  length f = length cortex →
  length (recort z f surf cortex) = length surf.1
  ∧ (∀ i c, cortex !! i = Some c →
       recort z f surf cortex !! Z.to_nat c = f !! i)
  ∧ (∀ p, (p < length surf.1)%nat → Z.of_nat p ∉ cortex →
       recort z f surf cortex !! p = Some z).
Proof.
  intros (Hne & Hinc & Hr)%mask_ok_inv Hlen. unfold recort.
  split_and!.
  - by rewrite scatter_length, length_replicate.
  - intros i c Hi.
    destruct (f !! i) as [x|] eqn:Hx.
    + eapply scatter_lookup; [by apply increasing_sorted| |done..].
      by rewrite length_replicate.
    + apply lookup_ge_None in Hx. apply lookup_lt_Some in Hi. lia.
  - intros p Hp Hout. rewrite scatter_lookup_other.
    + by apply lookup_replicate_2.
    + intros c x Hin <-. apply Hout.
      apply list_elem_of_lookup in Hin as [i Hi].
      apply lookup_zip_with_Some in Hi as (c' & x' & [= <- <-] & Hc & _).
      rewrite Forall_forall in Hr.
      pose proof (Hr c (list_elem_of_lookup_2 _ _ _ Hc)).
      rewrite Z2Nat.id by lia. by eapply list_elem_of_lookup_2.
Qed.

(** C4.  Projection to the full surface, [recort]: for a well-formed
    mask over a surface of [n] vertices and a field with one value per
    cortex vertex, the result has length [n], holds [f[i]] at position
    [cortex[i]], and holds the zero at every position outside the mask.
    What [dist_calc] and [zone_calc] return is such a projection (of the
    solver's field, and of the zone numbers). *)
Theorem recort_projection {A} (z : A) (f : list A) (surf : surface)
    (cortex : list Z) :
  mask_ok (length surf.1) cortex = true →
  length f = length cortex →
  (length (recort z f surf cortex) = length surf.1
   ∧ (∀ i c, cortex !! i = Some c →
        recort z f surf cortex !! Z.to_nat c = f !! i)
   ∧ (∀ p, (p < length surf.1)%nat → Z.of_nat p ∉ cortex →
        recort z f surf cortex !! p = Some z))
  ∧ (∀ src dist, dist_calc surf cortex src = Ok dist →
       ∃ field : list D, dist = recort zero field surf cortex)
  ∧ (∀ seeds zone, zone_calc surf cortex seeds = Ok zone →
       ∃ data : list nat, zone = recort 0%nat data surf cortex).
Proof.
  intros Hok Hlen. split; [by apply recort_spec|]. split.
  - intros src dist (cv & ct & tsn & _ & _ & ->)%dist_calc_Ok. eauto.
  - intros seeds zone (cv & ct & dv & first & _ & _ & _ & ->)%zone_calc_Ok.
    eauto.
Qed.
End Projection.

(** ** Nearest seed zones *)

Lemma assign_row_length {A} m (row r : list A) :
  assign_row m row = Ok r → length r = m.
Proof.
  unfold assign_row. destruct (Nat.eqb_spec (length row) m) as [Heq|Hne].
  - by intros [= <-].
  - destruct row as [|x [|??]]; [done| |done].
    intros [= <-]. apply length_replicate.
Qed.

Lemma column_lookup {A} (a : list (list A)) j :
  Forall (λ row, (j < length row)%nat) a →
  length (column j a) = length a
  ∧ ∀ x, column j a !! x = entry a x j.
Proof.
  unfold column, entry. induction 1 as [|row a Hrow Ha [IHl IH]]; [done|].
  cbn [omap list_omap]. destruct (lookup_lt_is_Some_2 _ _ Hrow) as [v Hv].
  rewrite Hv. split; [cbn; by f_equal|].
  intros [|x]; cbn; [done|]. apply IH.
Qed.

Section Zones.
Context {D : Type} `{!Num D, !Gdist D, !Argsort D, !Float32 D}.

Lemma seed_fields_rows cv ct cortex seeds (dist_vals : list (list D)) :
  seed_fields cv ct cortex seeds = Ok dist_vals →
  length dist_vals = length seeds
  ∧ Forall (λ row, length row = length cv) dist_vals.
Proof.
  intros H. split; [by eapply for_each_length|].
  apply Forall_lookup. intros x row Hx.
  destruct (for_each_lookup_r _ _ _ _ _ H Hx) as (s & _ & Hs).
  res_inv Hs. by eapply assign_row_length.
Qed.

Lemma np_argsort_length `{!ArgsortSpec D} (l : list D) :
  length (np_argsort l) = length l.
Proof. by rewrite (np_argsort_perm l), length_seq. Qed.

Lemma np_argsort_lt `{!ArgsortSpec D} (l : list D) i a :
  np_argsort l !! i = Some a → (a < length l)%nat.
Proof.
  intros Hi%list_elem_of_lookup_2. rewrite (np_argsort_perm l) in Hi.
  apply elem_of_seq in Hi. lia.
Qed.

(** Row 0 of the argsort along axis 0: for every column, the first index
    of the argsort of that column. *)
Lemma argsort_row0 `{!ArgsortSpec D} m (a : list (list D)) first :
  Forall (λ row, length row = m) a →
  row0 (argsort_axis0 m a) = Ok first →
  a ≠ [] ∧ length first = m
  ∧ ∀ j, (j < m)%nat → first !! j = np_argsort (column j a) !! 0%nat.
Proof.
  intros Hrows H. destruct a as [|r a]; [done|].
  split; [done|].
  remember (r :: a) as rows eqn:Hrs.
  assert (length rows = S (length a)) as Hlen by (by subst).
  unfold argsort_axis0 in H. rewrite Hlen in H. cbn [seq map row0] in H.
  injection H as <-.
  assert (∀ j, (j < m)%nat →
            is_Some (np_argsort (column j rows) !! 0%nat)) as Hsome.
  { intros j Hj. apply lookup_lt_is_Some_2.
    rewrite np_argsort_length.
    destruct (column_lookup rows j) as [-> _]; [|lia].
    eapply Forall_impl; [exact Hrows|]. cbn. lia. }
  clear Hrows Hrs Hlen.
  assert (∀ s n, (∀ j, (s ≤ j < s + n)%nat →
                   is_Some (np_argsort (column j rows) !! 0%nat)) →
            let first := omap (λ c : list nat, c !! 0%nat)
                           (map (λ j, np_argsort (column j rows)) (seq s n)) in
            length first = n
            ∧ ∀ j, (j < n)%nat →
                first !! j = np_argsort (column (s + j) rows) !! 0%nat) as Hgen.
  { intros s n. revert s. induction n as [|n IH]; intros s Hs; cbn.
    - split; [done|]. lia.
    - destruct (Hs s) as [v Hv]; [lia|]. rewrite Hv. cbn.
      destruct (IH (S s)) as [IHl IHj]; [intros; apply Hs; lia|].
      split; [by f_equal|].
      intros [|j] Hj; cbn.
      + by rewrite Nat.add_0_r.
      + rewrite IHj by lia. do 3 f_equal. lia. }
  destruct (Hgen 0%nat m) as [Hl Hj]; [intros; apply Hsome; lia|].
  split; [done|]. intros j Hjm. by rewrite Hj.
Qed.

(** The shape of a successful run of [zone_calc]. *)
Lemma zone_calc_run `{!ArgsortSpec D} (surf : surface) (cortex : list Z)
    seeds (zone : list nat) :
  zone_calc surf cortex seeds = Ok zone →
  ∃ cv ct dist_vals,
    surf_keep_cortex surf cortex = Ok (cv, ct)
    ∧ seed_fields cv ct cortex seeds = Ok dist_vals
    ∧ seeds ≠ []
    ∧ ∀ i c, cortex !! i = Some c →
        ∃ a, np_argsort (column i dist_vals) !! 0%nat = Some a
             ∧ zone !! Z.to_nat c = Some (S a)
             ∧ length (column i dist_vals) = length seeds
             ∧ ∀ x, column i dist_vals !! x = entry dist_vals x i.
Proof.
  intros (cv & ct & dv & first & Hk & Hdv & Hfirst & ->)%zone_calc_Ok.
  exists cv, ct, dv. split_and!; [done..| |].
  - intros ->. by injection Hdv as <-.
  - destruct (surf_keep_cortex_inv _ _ _ _ Hk) as [Hok Hlen].
    destruct (seed_fields_rows _ _ _ _ _ Hdv) as [Hk' Hrows].
    destruct (argsort_row0 _ _ _ Hrows Hfirst) as (Hne & Hfl & Hfj).
    intros i c Hi.
    assert (i < length cv)%nat as Hilt
      by (rewrite Hlen; by eapply lookup_lt_Some).
    destruct (column_lookup dv i) as [Hcl Hce].
    { eapply Forall_impl; [exact Hrows|]. cbn. lia. }
    destruct (lookup_lt_is_Some_2 first i) as [a Ha]; [lia|].
    exists a. split_and!; [by rewrite <- Hfj| |congruence|done].
    destruct (recort_spec 0%nat (map S first) surf cortex Hok)
      as (_ & Hp & _); [rewrite length_map; lia|].
    rewrite (Hp i c Hi), list_lookup_fmap, Ha. done.
Qed.
(** C10.  Every cortex vertex of the vector [zone_calc] returns holds a
    seed number between 1 and the number of seed sets; so a 0 is only
    found outside the cortex. *)
Theorem zone_calc_range `{!ArgsortSpec D} (surf : surface) (cortex : list Z)
    seeds (zone : list nat) :
  zone_calc surf cortex seeds = Ok zone →
  (∀ i c, cortex !! i = Some c →
     ∃ z, zone !! Z.to_nat c = Some z ∧ (1 ≤ z ≤ length seeds)%nat)
  ∧ (∀ p, zone !! p = Some 0%nat → Z.of_nat p ∉ cortex).
Proof.
  intros (cv & ct & dv & Hk & Hdv & Hne & Hz)%zone_calc_run.
  assert (∀ i c, cortex !! i = Some c →
    ∃ z, zone !! Z.to_nat c = Some z ∧ (1 ≤ z ≤ length seeds)%nat) as Hcortex.
  { intros i c Hi. destruct (Hz i c Hi) as (a & Ha & Hzc & Hlen & _).
    exists (S a). split; [done|].
    apply np_argsort_lt in Ha. lia. }
  split; [done|].
  intros p Hp [i Hi]%list_elem_of_lookup.
  destruct (Hcortex i _ Hi) as (z & Hzc & Hz1).
  rewrite Nat2Z.id in Hzc. rewrite Hp in Hzc. injection Hzc as <-. lia.
Qed.

(** C1, as the code has it.  Every cortex vertex is given the 1-based
    number of a seed set whose field is minimal at that vertex: no seed
    set is closer.  Of several equally close seed sets it is the one that
    [np.argsort] puts first in the column of the vertex: the lowest number
    for a stable sort ([zone_calc_stable_ties]), not always the lowest
    for numpy's default sort. *)
Theorem zone_calc_nearest `{!ArgsortSpec D} (surf : surface)
    (cortex : list Z) seeds (zone : list nat) :
  zone_calc surf cortex seeds = Ok zone →
  ∃ cv ct dist_vals,
    surf_keep_cortex surf cortex = Ok (cv, ct)
    ∧ seed_fields cv ct cortex seeds = Ok dist_vals
    ∧ ∀ i c, cortex !! i = Some c →
        ∃ a d, zone !! Z.to_nat c = Some (S a)
               ∧ np_argsort (column i dist_vals) !! 0%nat = Some a
               ∧ (a < length seeds)%nat
               ∧ entry dist_vals a i = Some d
               ∧ ∀ y dy, entry dist_vals y i = Some dy → le d dy.
Proof.
  intros (cv & ct & dv & Hk & Hdv & Hne & Hz)%zone_calc_run.
  exists cv, ct, dv. split_and!; [done..|].
  intros i c Hi. destruct (Hz i c Hi) as (a & Ha & Hzc & Hlen & Hcol).
  pose proof (np_argsort_lt _ _ _ Ha) as Halt.
  destruct (lookup_lt_is_Some_2 (column i dv) a Halt) as [d Hd].
  exists a, d. split_and!; [done|done|lia|by rewrite <- Hcol|].
  intros y dy Hy. rewrite <- Hcol in Hy.
  assert (y ∈ np_argsort (column i dv)) as [j Hj]%list_elem_of_lookup.
  { rewrite np_argsort_perm. apply elem_of_seq.
    apply lookup_lt_Some in Hy. lia. }
  eapply (np_argsort_sorted (column i dv) 0 j a y); [lia|done..].
Qed.

(** Were the sort stable, ties would go to the lowest seed number. *)
Lemma zone_calc_stable_ties `{!ArgsortSpec D, !ArgsortStable D}
    (surf : surface) (cortex : list Z) seeds :
  lowest_index_on_ties surf cortex seeds.
Proof.
  intros zone cv ct dv Hzone Hk Hdv i c a y d Hi Hzc Hya Ha Hy.
  apply zone_calc_run in Hzone
    as (cv' & ct' & dv' & Hk' & Hdv' & Hne & Hz).
  rewrite Hk in Hk'. injection Hk' as <- <-.
  rewrite Hdv in Hdv'. injection Hdv' as <-.
  destruct (Hz i c Hi) as (a' & Ha' & Hzc' & Hlen & Hcol).
  rewrite Hzc in Hzc'. injection Hzc' as <-.
  rewrite <- Hcol in Ha, Hy.
  assert (y ∈ np_argsort (column i dv)) as [j Hj]%list_elem_of_lookup.
  { rewrite np_argsort_perm. apply elem_of_seq.
    apply lookup_lt_Some in Hy. lia. }
  destruct j as [|j]; [rewrite Ha' in Hj; injection Hj as ->; lia|].
  pose proof (np_argsort_stable (column i dv) 0 (S j) a y d
                ltac:(lia) Ha' Hj Ha Hy). lia.
Qed.
End Zones.

(** ** The region distance matrix *)

Lemma np_array_Ok {A} (rows r : list (list A)) :
  np_array rows = Ok r → r = rows.
Proof.
  unfold np_array. destruct rows as [|r0 rows]; [by intros [= <-]|].
  destruct (forallb _ _); [by intros [= <-]|done].
Qed.

Section Minimum.
Context {D : Type} `{!Num D, !PartialOrder (le (D:=D)), !Total (le (D:=D))}.

Lemma dmin_le_l (a b : D) : le (dmin a b) a.
Proof.
  unfold dmin. destruct (decide (le a b)) as [?|Hn]; [done|].
  by destruct (total le a b).
Qed.

Lemma dmin_le_r (a b : D) : le (dmin a b) b.
Proof. unfold dmin. by destruct (decide (le a b)). Qed.

Lemma dmin_cases (a b : D) : dmin a b = a ∨ dmin a b = b.
Proof. unfold dmin. destruct (decide (le a b)); auto. Qed.

Lemma foldl_dmin (x : D) (l : list D) :
  min_of (foldl dmin x l) (x :: l).
Proof.
  revert x. induction l as [|y l IH]; intros x.
  - split; [left|]. intros ? ->%list_elem_of_singleton. done.
  - cbn [foldl]. destruct (IH (dmin x y)) as [Hin Hle]. split.
    + apply elem_of_cons in Hin as [->|Hin].
      * destruct (dmin_cases x y) as [->| ->]; [left|right; left].
      * by do 2 right.
    + intros z Hz.
      assert (le (foldl dmin (dmin x y) l) (dmin x y)) as Hm
        by (apply Hle; left).
      apply elem_of_cons in Hz as [->|Hz].
      { etrans; [exact Hm|apply dmin_le_l]. }
      apply elem_of_cons in Hz as [->|Hz].
      { etrans; [exact Hm|apply dmin_le_r]. }
      apply Hle. by right.
Qed.

Lemma np_min_Ok (l : list D) e : np_min l = Ok e → l ≠ [] ∧ min_of e l.
Proof.
  destruct l as [|x l]; [done|]. intros [= <-]. split; [done|].
  apply foldl_dmin.
Qed.

Lemma np_min_total (l : list D) : l ≠ [] → ∃ e, np_min l = Ok e.
Proof. destruct l; [done|]. cbn. eauto. Qed.

Lemma min_of_unique (l : list D) e1 e2 : min_of e1 l → min_of e2 l → e1 = e2.
Proof.
  intros [Hin1 Hle1] [Hin2 Hle2]. apply (anti_symm le); auto.
Qed.

End Minimum.

Section Matrix.
Context {D : Type} `{!Num D, !Gdist D}.
Context {L : Type} `{!LabelReader L}.
Implicit Types (mat : list (list D)) (rois : list string).

(** The shape of a successful run of [dist_calc_matrix]: the names kept,
    and how entry [(a, b)] is computed: the minimum, over the
    (translated) vertices of the row's region [a], of the field of the
    column's region [b]. *)
Lemma dist_calc_matrix_run (surf : surface) (cortex : list Z) (labels : L)
    exceptions mat rois :
  dist_calc_matrix surf cortex labels exceptions = Ok (mat, rois) →
  rois = filter (λ a, a ∉ exceptions) (get_freesurfer_label labels)
  ∧ length mat = length rois
  ∧ ∃ cv ct,
      surf_keep_cortex surf cortex = Ok (cv, ct)
      ∧ ∀ a b ra rb, rois !! a = Some ra → rois !! b = Some rb →
          ∃ ta tb row vals e,
            translate_src (load_freesurfer_label labels ra) cortex = Ok ta
            ∧ translate_src (load_freesurfer_label labels rb) cortex = Ok tb
            ∧ mat !! a = Some row ∧ length row = length rois
            ∧ row !! b = Some e
            ∧ Forall2 (λ v x, compute_gdist cv ct tb !! v = Some x) ta vals
            ∧ np_min vals = Ok e.
Proof.
  unfold dist_calc_matrix. intros H.
  rewrite (np_where_select (λ a, a ∉ exceptions)) in H.
  apply bind_Ok in H as ([cv ct] & Hk & H).
  apply bind_Ok in H as (dist_roi0 & Hloop1 & H).
  apply bind_Ok in H as (dist_roi & ->%np_array_Ok & H).
  apply bind_Ok in H as (dist_mat & Hloop2 & H).
  apply bind_Ok in H as (dist_mat' & ->%np_array_Ok & [= <- <-]).
  split; [done|]. split; [by eapply for_each_length|].
  exists cv, ct. split; [done|]. intros a b ra rb Ha Hb.
  destruct (for_each_lookup _ _ _ _ _ Hloop2 Ha) as (row & Hrow & Hra).
  apply bind_Ok in Hra as (ta & Hta & Hra).
  apply bind_Ok in Hra as (cols & Hcols & Hra).
  destruct (for_each_lookup _ _ _ _ _ Hloop1 Hb) as (fb & Hfb & Hrb).
  apply bind_Ok in Hrb as (tb & Htb & [= <-]).
  destruct (for_each_lookup _ _ _ _ _ Hcols Hfb) as (vals & Hvals & Hcol).
  destruct (for_each_lookup _ _ _ _ _ Hra Hvals) as (e & He & Hmin).
  exists ta, tb, row, vals, e. split_and!; try done.
  - rewrite (for_each_length _ _ _ Hra), (for_each_length _ _ _ Hcols).
    by eapply for_each_length.
  - apply for_each_Ok in Hcol. eapply Forall2_impl; [exact Hcol|].
    intros v x Hv. cbn in Hv.
    by destruct (compute_gdist cv ct tb !! v); simplify_eq.
Qed.

(** C6.  The regions kept are the label names that are not among the
    exceptions, in the order of the label collection; with the default
    exceptions, the names other than [Unknown] and [Medial_wall].  Row
    [a] and column [b] of the matrix belong to the [a]-th and [b]-th of
    these names: the matrix has one row and one column per name, and
    entry [(a, b)] is computed from the vertices of name [a] and the
    field of name [b]. *)
Theorem dist_calc_matrix_regions (surf : surface) (cortex : list Z)
    (labels : L) exceptions mat rois :
  dist_calc_matrix surf cortex labels exceptions = Ok (mat, rois) →
  rois = filter (λ a, a ∉ exceptions) (get_freesurfer_label labels)
  ∧ (∀ r, r ∈ rois ↔ r ∈ get_freesurfer_label labels ∧ r ∉ exceptions)
  ∧ rois `sublist_of` get_freesurfer_label labels
  ∧ (exceptions = default_exceptions →
     ∀ r, r ∈ rois ↔ r ∈ get_freesurfer_label labels
                     ∧ r ≠ "Unknown"%string ∧ r ≠ "Medial_wall"%string)
  ∧ length mat = length rois
  ∧ Forall (λ row, length row = length rois) mat
  ∧ ∃ cv ct,
      surf_keep_cortex surf cortex = Ok (cv, ct)
      ∧ ∀ a b ra rb, rois !! a = Some ra → rois !! b = Some rb →
          ∃ ta tb vals e,
            translate_src (load_freesurfer_label labels ra) cortex = Ok ta
            ∧ translate_src (load_freesurfer_label labels rb) cortex = Ok tb
            ∧ entry mat a b = Some e
            ∧ Forall2 (λ v x, compute_gdist cv ct tb !! v = Some x) ta vals
            ∧ np_min vals = Ok e.
Proof.
  intros (Hrois & Hlen & cv & ct & Hk & Hent)%dist_calc_matrix_run.
  split_and!; [done| | | |done| |].
  - intros r. rewrite Hrois, list_elem_of_filter. tauto.
  - rewrite Hrois. apply sublist_filter.
  - intros -> r. rewrite Hrois, list_elem_of_filter.
    unfold default_exceptions.
    rewrite !not_elem_of_cons. pose proof (not_elem_of_nil r). tauto.
  - apply Forall_lookup. intros a row Hrow.
    destruct (lookup_lt_is_Some_2 rois a) as [ra Hra].
    { rewrite <- Hlen. by eapply lookup_lt_Some. }
    destruct (Hent a a ra ra Hra Hra)
      as (? & ? & row' & ? & ? & _ & _ & Hrow' & Hl & _).
    congruence.
  - exists cv, ct. split; [done|]. intros a b ra rb Ha Hb.
    destruct (Hent a b ra rb Ha Hb)
      as (ta & tb & row & vals & e & ? & ? & Hrow & _ & He & ? & ?).
    exists ta, tb, vals, e. split_and!; try done.
    unfold entry. by rewrite Hrow.
Qed.
End Matrix.

(** ** The instances meet the contracts *)

Lemma StronglySorted_lookup_lt {A} (R : relation A) (l : list A) i j a b :
  StronglySorted R l → (i < j)%nat → l !! i = Some a → l !! j = Some b → R a b.
Proof.
  intros H. revert i j. induction H as [|x l Hl IH Hx]; intros i j Hij Hi Hj;
    [done|].
  destruct j as [|j]; [lia|]. cbn in Hj. destruct i as [|i]; cbn in Hi.
  - injection Hi as ->. rewrite Forall_forall in Hx.
    apply Hx. by eapply list_elem_of_lookup_2.
  - eapply IH; [|done..]. lia.
Qed.

Section InsertionArgsortSpec.
Context {D : Type} `{!Num D, !PartialOrder (le (D:=D)), !Total (le (D:=D))}.
Context (before : D → D → bool).
Context (before_true : ∀ x y, before x y = true → le x y).
Context (before_false : ∀ x y, before x y = false → le y x).
Context (l : list D).

(** The order of the keys, on indices. *)
Let by_key (a b : nat) : Prop :=
  ∀ x y, l !! a = Some x → l !! b = Some y → le x y.

Lemma insert_index_perm a ord :
  insert_index before l a ord ≡ₚ a :: ord.
Proof.
  induction ord as [|b ord IH]; [done|]. cbn.
  destruct (goes_before before l a b); [done|].
  rewrite IH. apply Permutation_swap.
Qed.

Lemma insert_index_sorted a ord :
  (a < length l)%nat → Forall (λ b, (b < length l)%nat) ord →
  StronglySorted by_key ord →
  StronglySorted by_key (insert_index before l a ord).
Proof.
  intros Ha Hr Hs. induction Hs as [|b ord Hs IH Hb]; cbn.
  - repeat constructor.
  - apply Forall_cons in Hr as [Hbl Hr].
    destruct (lookup_lt_is_Some_2 _ _ Ha) as [xa Hxa].
    destruct (lookup_lt_is_Some_2 _ _ Hbl) as [xb Hxb].
    unfold goes_before. rewrite Hxa, Hxb.
    destruct (before xa xb) eqn:Hcmp.
    + assert (by_key a b) as Hab.
      { intros x y Hx Hy. simplify_eq. by apply before_true. }
      constructor; [by constructor|]. constructor; [done|].
      eapply Forall_impl; [exact Hb|]. intros c Hbc x z Hx Hz.
      trans xb; [by apply Hab | by apply Hbc].
    + constructor; [by apply IH|].
      rewrite insert_index_perm. constructor; [|done].
      intros x y Hx Hy. simplify_eq. by apply before_false.
Qed.

Lemma insertion_argsort_perm :
  insertion_argsort before l ≡ₚ seq 0 (length l).
Proof.
  unfold insertion_argsort. generalize (seq 0 (length l)) as idx.
  induction idx as [|a idx IH]; [done|]. cbn.
  by rewrite insert_index_perm, IH.
Qed.

Lemma insertion_argsort_sorted :
  StronglySorted by_key (insertion_argsort before l).
Proof.
  unfold insertion_argsort.
  assert (Forall (λ b, (b < length l)%nat) (seq 0 (length l))) as Hr.
  { apply Forall_forall. intros b Hb%elem_of_seq. lia. }
  revert Hr. generalize (seq 0 (length l)) as idx.
  induction idx as [|a idx IH]; intros Hr; [constructor|]. cbn.
  apply Forall_cons in Hr as [Ha Hr]. apply insert_index_sorted; [done| |auto].
  assert (foldr (insert_index before l) [] idx ≡ₚ idx) as ->; [|done].
  clear. induction idx as [|a idx IH]; [done|]. cbn.
  by rewrite insert_index_perm, IH.
Qed.

Lemma insertion_argsort_lookup i j a b x y :
  (i ≤ j)%nat →
  insertion_argsort before l !! i = Some a →
  insertion_argsort before l !! j = Some b →
  l !! a = Some x → l !! b = Some y → le x y.
Proof.
  intros Hij Hi Hj Hx Hy.
  destruct (decide (i = j)) as [->|Hne].
  - by simplify_eq.
  - eapply (StronglySorted_lookup_lt by_key _ i j a b);
      [apply insertion_argsort_sorted|lia|done..].
Qed.
End InsertionArgsortSpec.

Section Instances.
Context {D : Type} `{!Num D, !PartialOrder (le (D:=D)), !Total (le (D:=D))}.

Lemma argsort_stable_spec : @ArgsortSpec D _ argsort_stable.
Proof.
  split; cbn.
  - intros l. apply insertion_argsort_perm.
  - intros l. apply insertion_argsort_lookup.
    + intros x y. apply bool_decide_eq_true_1.
    + intros x y Hn%bool_decide_eq_false_1. by destruct (total le x y).
Qed.

Context (geo : list (@coord D) → list local_triangle → nat → nat → D).

Lemma reference_solver_length : @GdistLength D (reference_solver geo).
Proof. intros vs ts src. cbn. unfold solver_field. by rewrite length_map, length_seq. Qed.

Lemma reference_solver_local : @GdistLocal D _ (reference_solver geo) geo.
Proof.
  intros vs ts maxdist i j v Hin. cbn in Hin.
  apply list_elem_of_bind in Hin as (i' & Hin & Hi'%elem_of_seq).
  apply list_elem_of_bind in Hin as (j' & Hin & Hj'%elem_of_seq).
  destruct (decide _) as [[_ Hle]|_]; [|by apply elem_of_nil in Hin].
  apply list_elem_of_singleton in Hin as [= -> -> ->].
  split_and!; [lia|lia|done|done].
Qed.
End Instances.

Module LineFacts.
Import Line.

#[global] Instance le_po : PartialOrder (@le Z num).
Proof. cbn. apply _. Qed.

#[global] Instance le_total : Total (@le Z num).
Proof. cbn. apply _. Qed.

End LineFacts.

(** ** Bounded pairwise distances *)

Section Pairwise.
Context {D : Type} `{!Num D, !Gdist D, !Float32 D}.
Context (geo : list (@coord D) → list local_triangle → nat → nat → D).
Context `{!GdistLocal D geo}.

Lemma dist_calc_pairwise_Ok (surf : surface) (cortex : list Z) maxdist m :
  dist_calc_pairwise surf cortex maxdist = Ok m →
  ∃ cv ct,
    surf_keep_cortex surf cortex = Ok (cv, ct)
    ∧ shape m = (length surf.1, length surf.1)
    ∧ ∀ r c w, (r, c, w) ∈ entries m ↔
        ∃ i j v, (i, j, v) ∈ entries (local_gdist_matrix cv ct maxdist)
                 ∧ cortex !! i = Some r ∧ cortex !! j = Some c
                 ∧ w = astype_float32 v.
Proof.
  unfold dist_calc_pairwise. intros H.
  apply bind_Ok in H as ([cv ct] & Hk & [= <-]).
  exists cv, ct. split_and!; [done..|]. intros r c w. cbn.
  rewrite list_elem_of_omap. split.
  - intros ([[i j] v'] & Hin & Hsome).
    apply list_elem_of_fmap in Hin as ([[i0 j0] v] & Heq & Hin).
    injection Heq as -> -> ->.
    destruct (cortex !! i0) as [r'|] eqn:Hi; [|done].
    destruct (cortex !! j0) as [c'|] eqn:Hj; [|done].
    cbn in Hsome. injection Hsome as -> -> <-. exists i0, j0, v. done.
  - intros (i & j & v & Hin & Hi & Hj & ->).
    exists (i, j, astype_float32 v). split.
    + apply list_elem_of_fmap. by exists (i, j, v).
    + by rewrite Hi, Hj.
Qed.

(** C5, as the code has it.  Every stored entry of the matrix
    [dist_calc_pairwise] returns is the binary32 rounding of a geodesic
    distance that is at most [maxdist], between two cortex vertices; and
    no pair of cortex vertices farther apart than [maxdist] has an
    entry.  (The rounding can exceed [maxdist].) *)
Theorem dist_calc_pairwise_entries (surf : surface) (cortex : list Z)
    maxdist m :
  dist_calc_pairwise surf cortex maxdist = Ok m →
  ∃ cv ct,
    surf_keep_cortex surf cortex = Ok (cv, ct)
    ∧ (∀ r c w, (r, c, w) ∈ entries m →
         ∃ i j, cortex !! i = Some r ∧ cortex !! j = Some c
                ∧ le (geo cv ct i j) maxdist
                ∧ w = astype_float32 (geo cv ct i j))
    ∧ (∀ i j r c w, cortex !! i = Some r → cortex !! j = Some c →
         ¬ le (geo cv ct i j) maxdist → (r, c, w) ∉ entries m).
Proof.
  intros Hrun.
  destruct (dist_calc_pairwise_Ok _ _ _ _ Hrun) as (cv & ct & Hk & _ & Hent).
  exists cv, ct. split; [done|].
  assert (∀ r c w, (r, c, w) ∈ entries m →
    ∃ i j, cortex !! i = Some r ∧ cortex !! j = Some c
           ∧ le (geo cv ct i j) maxdist
           ∧ w = astype_float32 (geo cv ct i j)) as Hfst.
  { intros r c w (i & j & v & Hin & Hi & Hj & ->)%Hent.
    apply local_gdist_matrix_entry in Hin as (_ & _ & -> & Hle).
    by exists i, j. }
  split; [done|].
  intros i j r c w Hi Hj Hfar (i' & j' & Hi' & Hj' & Hle & _)%Hfst.
  destruct (surf_keep_cortex_inv _ _ _ _ Hk) as [Hok _].
  apply mask_ok_inv in Hok as (_ & Hinc & _).
  rewrite (increasing_lookup_inj _ _ _ _ Hinc Hi Hi') in Hfar.
  rewrite (increasing_lookup_inj _ _ _ _ Hinc Hj Hj') in Hfar.
  done.
Qed.
End Pairwise.

(** ** The theorems on concrete surfaces *)

Section Runs.
#[local] Existing Instance Line.num.
#[local] Existing Instance Line.solver.
#[local] Existing Instance Line.argsort.
#[local] Existing Instance Line.labels.
#[local] Existing Instance IEEE.num.
#[local] Existing Instance IEEE.solver.
#[local] Existing Instance IEEE.argsort.
#[local] Existing Instance IEEE.float32.

Lemma line_argsort_spec : ArgsortSpec Z.
Proof. apply (argsort_stable_spec (D:=Z)). Qed.

Lemma line_zone_run :
  zone_calc Line.surf Line.cortex [[0]; [1]] = Ok [1; 2; 1; 0]%nat.
Proof. vm_compute. reflexivity. Qed.

Lemma line_matrix_run :
  dist_calc_matrix Line.surf Line.cortex tt default_exceptions
  = Ok ([[0; 1]; [1; 0]], ["left"; "right"]%string).
Proof. vm_compute. reflexivity. Qed.

Lemma ieee_pairwise_run :
  ∃ m, dist_calc_pairwise IEEE.surf IEEE.cortex IEEE.tenth = Ok m
       ∧ (0, 1, astype_float32 IEEE.tenth) ∈ entries m.
Proof. eexists. split; [vm_compute; reflexivity|]. left. Qed.
(** C8 on a mask with an index past the last vertex. *)
Lemma invalid_mask_raises_witness :
  malformed (length IEEE.surf.1) [0; 7]
  ∧ surf_keep_cortex IEEE.surf [0; 7] = Raise InvalidMaskError
  ∧ dist_calc_pairwise IEEE.surf [0; 7] IEEE.tenth = Raise InvalidMaskError.
Proof.
  assert (malformed (length IEEE.surf.1) [0; 7]) as H.
  { right. right. left. exists 7. split; [right; left|]. cbn. lia. }
  split; [exact H|].
  destruct (invalid_mask_raises (L:=unit) IEEE.surf [0; 7] H)
    as (Hk & _ & Hp & _).
  split; [exact Hk|apply Hp].
Defined.

(** C7 on source nodes of which one, vertex 3, is outside the cortex. *)
Lemma out_of_cortex_raises_witness :
  (∃ v, v ∈ [0; 3] ∧ v ∉ Line.cortex)
  ∧ translate_src [0; 3] Line.cortex = Raise OutOfCortexError
  ∧ dist_calc Line.surf Line.cortex [0; 3] = Raise OutOfCortexError.
Proof.
  assert (∃ v, v ∈ [0; 3] ∧ v ∉ Line.cortex) as H.
  { exists 3. split; [right; left|].
    unfold Line.cortex. rewrite !not_elem_of_cons.
    split_and!; [lia..|apply not_elem_of_nil]. }
  split; [exact H|].
  destruct (out_of_cortex_raises (L:=unit) Line.surf Line.cortex [0; 3] H)
    as (Ht & Hd).
  split; [exact Ht|]. apply Hd. reflexivity.
Defined.

(** C4 on a field of three values over a surface of four vertices. *)
Lemma recort_projection_witness :
  mask_ok (length Line.surf.1) Line.cortex = true
  ∧ length [10; 20; 30] = length Line.cortex
  ∧ length (recort 0 [10; 20; 30] Line.surf Line.cortex) = 4%nat
  ∧ recort 0 [10; 20; 30] Line.surf Line.cortex !! 1%nat = Some 20
  ∧ recort 0 [10; 20; 30] Line.surf Line.cortex !! 3%nat = Some 0.
Proof.
  split; [reflexivity|]. split; [reflexivity|].
  destruct (recort_projection (D:=Z) 0 [10; 20; 30] Line.surf Line.cortex
              eq_refl eq_refl) as ((Hlen & Hin & Hout) & _).
  split; [exact Hlen|]. split.
  - apply (Hin 1%nat 1). reflexivity.
  - apply (Hout 3%nat); [cbn; lia|].
    unfold Line.cortex. rewrite !not_elem_of_cons.
    split_and!; [lia..|apply not_elem_of_nil].
Defined.

(** C10 on two seed sets. *)
Lemma zone_calc_range_witness :
  zone_calc Line.surf Line.cortex [[0]; [1]] = Ok [1; 2; 1; 0]%nat
  ∧ ∀ i c, Line.cortex !! i = Some c →
      ∃ z, [1; 2; 1; 0]%nat !! Z.to_nat c = Some z ∧ (1 ≤ z ≤ 2)%nat.
Proof.
  split; [exact line_zone_run|].
  apply (zone_calc_range (ArgsortSpec0:=line_argsort_spec)
           Line.surf Line.cortex [[0]; [1]] _ line_zone_run).
Defined.

(** C1 on two seed sets, vertices 0 and 1, with vertex 2 half way. *)
Lemma zone_calc_nearest_witness :
  zone_calc Line.surf Line.cortex [[0]; [1]] = Ok [1; 2; 1; 0]%nat
  ∧ ∃ cv ct dist_vals,
      surf_keep_cortex Line.surf Line.cortex = Ok (cv, ct)
      ∧ seed_fields cv ct Line.cortex [[0]; [1]] = Ok dist_vals
      ∧ ∀ i c, Line.cortex !! i = Some c →
          ∃ a d, [1; 2; 1; 0]%nat !! Z.to_nat c = Some (S a)
                 ∧ np_argsort (column i dist_vals) !! 0%nat = Some a
                 ∧ (a < 2)%nat
                 ∧ entry dist_vals a i = Some d
                 ∧ ∀ y dy, entry dist_vals y i = Some dy → d ≤ dy.
Proof.
  split; [exact line_zone_run|].
  apply (zone_calc_nearest (ArgsortSpec0:=line_argsort_spec)
           Line.surf Line.cortex [[0]; [1]] _ line_zone_run).
Defined.

(** C6 on a collection of four names, two of them excepted. *)
Lemma dist_calc_matrix_regions_witness :
  dist_calc_matrix Line.surf Line.cortex tt default_exceptions
    = Ok ([[0; 1]; [1; 0]], ["left"; "right"]%string)
  ∧ ["left"; "right"]%string
    = filter (λ a, a ∉ default_exceptions) (get_freesurfer_label tt)
  ∧ length [[0; 1]; [1; 0]] = length ["left"; "right"]%string.
Proof.
  split; [exact line_matrix_run|].
  destruct (dist_calc_matrix_regions Line.surf Line.cortex tt
              default_exceptions _ _ line_matrix_run)
    as (Hrois & _ & _ & _ & Hlen & _).
  split; [exact Hrois|exact Hlen].
Defined.

(** C5 (amended) on a triangle with two sides of length 0.1. *)
Lemma dist_calc_pairwise_entries_witness :
  ∃ m, dist_calc_pairwise IEEE.surf IEEE.cortex IEEE.tenth = Ok m
    ∧ ∃ cv ct,
        surf_keep_cortex IEEE.surf IEEE.cortex = Ok (cv, ct)
        ∧ (∀ r c w, (r, c, w) ∈ entries m →
             ∃ i j, IEEE.cortex !! i = Some r ∧ IEEE.cortex !! j = Some c
                    ∧ le (IEEE.geo cv ct i j) IEEE.tenth
                    ∧ w = astype_float32 (IEEE.geo cv ct i j))
        ∧ (∀ i j r c w,
             IEEE.cortex !! i = Some r → IEEE.cortex !! j = Some c →
             ¬ le (IEEE.geo cv ct i j) IEEE.tenth → (r, c, w) ∉ entries m).
Proof.
  eexists. split; [vm_compute; reflexivity|].
  apply (dist_calc_pairwise_entries IEEE.geo
           (GdistLocal0:=reference_solver_local IEEE.geo)
           IEEE.surf IEEE.cortex IEEE.tenth).
  vm_compute. reflexivity.
Defined.

(** C5 as stated fails: the distance 0.1 between vertices 0 and 1 is
    within [maxdist] = 0.1 (and within the next binary64 value), and the
    value stored for the pair, its binary32 rounding, is above both. *)
Lemma dist_calc_pairwise_exceeds :
  @GdistLocal spec_float IEEE.num IEEE.solver IEEE.geo
  ∧ IEEE.geo IEEE.surf.1 [] 0 1 = IEEE.tenth
  ∧ ¬ pairwise_bounded IEEE.surf IEEE.cortex IEEE.tenth
  ∧ ¬ pairwise_bounded IEEE.surf IEEE.cortex IEEE.above_tenth.
Proof.
  split; [apply reference_solver_local|].
  split; [vm_compute; reflexivity|].
  split; intros H.
  - specialize (H _ 0 1 (astype_float32 IEEE.tenth)
                  ltac:(vm_compute; reflexivity) ltac:(left)).
    vm_compute in H. discriminate H.
  - specialize (H _ 0 1 (astype_float32 IEEE.tenth)
                  ltac:(vm_compute; reflexivity) ltac:(left)).
    vm_compute in H. discriminate H.
Qed.
End Runs.

(** * Further properties of [surfdist.analysis] *)

(** ** [zone_calc] *)

Section ZoneFurther.
Context {D : Type} `{!Num D, !Gdist D, !Argsort D}.

(** Row [x] of [dist_vals] is the field that [dist_calc] projects for seed
    set [x], when the solver returns one distance per vertex. *)
Lemma seed_fields_dist_calc `{!GdistLength D} (surf : @surface D)
    (cortex : list Z) seeds cv ct dist_vals x s :
  surf_keep_cortex surf cortex = Ok (cv, ct) →
  seed_fields cv ct cortex seeds = Ok dist_vals →
  seeds !! x = Some s →
  ∃ row, dist_vals !! x = Some row
         ∧ length row = length cortex
         ∧ dist_calc surf cortex s = Ok (recort zero row surf cortex).
Proof.
  intros Hk Hdv Hs.
  destruct (for_each_lookup _ _ _ _ _ Hdv Hs) as (row & Hrow & Hx).
  apply bind_Ok in Hx as (tsn & Ht & Hx).
  unfold assign_row in Hx. rewrite compute_gdist_length, Nat.eqb_refl in Hx.
  injection Hx as <-. eexists. split; [done|]. split.
  - rewrite compute_gdist_length. by eapply surf_keep_cortex_inv.
  - unfold dist_calc. rewrite Hk. cbn. by rewrite Ht.
Qed.

(** A seed set that is strictly the closest to a cortex vertex gets the
    vertex, whatever the sort does with ties. *)
Theorem zone_calc_strictly_nearest `{!ArgsortSpec D} (surf : @surface D)
    (cortex : list Z) seeds (zone : list nat) cv ct dist_vals i c x dx :
  zone_calc surf cortex seeds = Ok zone →
  surf_keep_cortex surf cortex = Ok (cv, ct) →
  seed_fields cv ct cortex seeds = Ok dist_vals →
  cortex !! i = Some c →
  entry dist_vals x i = Some dx →
  (∀ y dy, y ≠ x → entry dist_vals y i = Some dy → ¬ le dy dx) →
  zone !! Z.to_nat c = Some (S x).
Proof.
  intros Hzone Hk Hdv Hi Hx Hstrict.
  apply zone_calc_run in Hzone as (cv' & ct' & dv' & Hk' & Hdv' & _ & Hz).
  rewrite Hk in Hk'. injection Hk' as <- <-.
  rewrite Hdv in Hdv'. injection Hdv' as <-.
  destruct (Hz i c Hi) as (a & Ha & Hzc & Hlen & Hcol).
  destruct (decide (a = x)) as [->|Hne]; [done|].
  pose proof (np_argsort_lt _ _ _ Ha) as Halt.
  destruct (lookup_lt_is_Some_2 (column i dist_vals) a Halt) as [d Hd].
  destruct (Hstrict a d Hne); [by rewrite <- Hcol|].
  rewrite <- Hcol in Hx.
  assert (x ∈ np_argsort (column i dist_vals)) as [j Hj]%list_elem_of_lookup.
  { rewrite np_argsort_perm. apply elem_of_seq.
    apply lookup_lt_Some in Hx. lia. }
  eapply (np_argsort_sorted (column i dist_vals) 0 j a x); [lia|done..].
Qed.

(** [zone_calc] against [dist_calc]: the seed set a cortex vertex is given
    is one whose [dist_calc] value at that vertex is the least among the
    seed sets. *)
Theorem zone_calc_dist_calc `{!ArgsortSpec D, !GdistLength D}
    (surf : @surface D) (cortex : list Z) seeds (zone : list nat) :
  zone_calc surf cortex seeds = Ok zone →
  ∀ i c, cortex !! i = Some c →
    ∃ a s dist d,
      zone !! Z.to_nat c = Some (S a)
      ∧ seeds !! a = Some s
      ∧ dist_calc surf cortex s = Ok dist
      ∧ dist !! Z.to_nat c = Some d
      ∧ ∀ y s' dist' d',
          seeds !! y = Some s' → dist_calc surf cortex s' = Ok dist' →
          dist' !! Z.to_nat c = Some d' → le d d'.
Proof.
  intros (cv & ct & dv & Hk & Hdv & _ & Hz)%zone_calc_run i c Hi.
  destruct (surf_keep_cortex_inv _ _ _ _ Hk) as [Hok _].
  assert (∀ y s', seeds !! y = Some s' →
    ∃ dist' d', dist_calc surf cortex s' = Ok dist'
                ∧ dist' !! Z.to_nat c = Some d'
                ∧ entry dv y i = Some d') as Hrow.
  { intros y s' Hy.
    destruct (seed_fields_dist_calc _ _ _ _ _ _ _ _ Hk Hdv Hy)
      as (row & Hrow & Hlen & Hd).
    destruct (lookup_lt_is_Some_2 row i) as [d' Hd'].
    { rewrite Hlen. by eapply lookup_lt_Some. }
    exists (recort zero row surf cortex), d'. split; [done|].
    destruct (recort_spec zero row surf cortex Hok Hlen) as (_ & Hin & _).
    split; [by rewrite (Hin i c Hi)|].
    unfold entry. by rewrite Hrow. }
  destruct (Hz i c Hi) as (a & Ha & Hzc & Hlen & Hcol).
  pose proof (np_argsort_lt _ _ _ Ha) as Halt. rewrite Hlen in Halt.
  destruct (lookup_lt_is_Some_2 seeds a Halt) as [s Hs].
  destruct (Hrow a s Hs) as (dist & d & Hdist & Hd & Hentry).
  exists a, s, dist, d. split_and!; [done..|].
  intros y s' dist' d' Hy Hdist' Hd'.
  destruct (Hrow y s' Hy) as (dist'' & d'' & Hdist'' & Hd'' & Hentry').
  rewrite Hdist' in Hdist''. injection Hdist'' as <-.
  rewrite Hd' in Hd''. injection Hd'' as <-.
  rewrite <- Hcol in Hentry, Hentry'.
  assert (y ∈ np_argsort (column i dv)) as [j Hj]%list_elem_of_lookup.
  { rewrite np_argsort_perm. apply elem_of_seq.
    apply lookup_lt_Some in Hentry'. lia. }
  eapply (np_argsort_sorted (column i dv) 0 j a y); [lia|done..].
Qed.

(** [zone_calc] returns a vector as soon as the mask is well formed, there
    is a seed set, every seed vertex is in the cortex, and the solver
    returns one distance per vertex. *)
Theorem zone_calc_returns `{!GdistLength D} (surf : @surface D)
    (cortex : list Z) seeds :
  mask_ok (length surf.1) cortex = true →
  seeds ≠ [] →
  (∀ s v, s ∈ seeds → v ∈ s → v ∈ cortex) →
  ∃ zone, zone_calc surf cortex seeds = Ok zone.
Proof.
  intros Hok Hne Hin. unfold zone_calc.
  rewrite (surf_keep_cortex_Ok _ _ Hok). cbn.
  match goal with |- context [for_each ?f seeds] =>
    destruct (for_each_total f seeds) as [dv Hdv] end.
  { intros s Hs. destruct (translate_src_total s cortex) as [t ->]; [eauto|].
    cbn. unfold assign_row.
    rewrite compute_gdist_length, Nat.eqb_refl. eauto. }
  rewrite Hdv. cbn.
  assert (dv ≠ []) as Hdvne.
  { intros ->. apply for_each_length in Hdv. by destruct seeds. }
  destruct dv as [|r dv]; [done|]. cbn. eauto.
Qed.
End ZoneFurther.

(** ** [dist_calc_matrix] *)

Lemma np_array_homogeneous {A} (rows : list (list A)) m :
  Forall (λ r, length r = m) rows → np_array rows = Ok rows.
Proof.
  intros H. unfold np_array. destruct rows as [|r rows]; [done|].
  assert (forallb (λ r', Nat.eqb (length r') (length r)) (r :: rows) = true)
    as ->; [|done].
  apply forallb_forall. intros r' Hr'%list_elem_of_In.
  rewrite Forall_forall in H. apply Nat.eqb_eq.
  rewrite (H r' Hr'). symmetry. apply H. left.
Qed.

Lemma for_each_Raise_within {A B} (f : A → res B) xs x e :
  x ∈ xs → f x = Raise e →
  (∀ x' e', x' ∈ xs → f x' = Raise e' → e' = e) →
  for_each f xs = Raise e.
Proof.
  intros Hin Hx Honly.
  induction xs as [|x1 xs IH]; [by apply elem_of_nil in Hin|]. cbn.
  destruct (f x1) as [y|e1] eqn:H1; cbn.
  - apply elem_of_cons in Hin as [->|Hin]; [congruence|].
    rewrite IH; [done..|]. intros x' e' Hx'. apply Honly. by right.
  - rewrite (Honly x1 e1); [done|left|done].
Qed.

Lemma take_columns_total {A} (a : list (list A)) (idx : list nat) m :
  Forall (λ row, length row = m) a → Forall (λ j, (j < m)%nat) idx →
  ∃ cols, take_columns a idx = Ok cols
          ∧ length cols = length a
          ∧ Forall (λ c, length c = length idx) cols.
Proof.
  intros Ha Hidx. unfold take_columns.
  match goal with |- context [for_each ?f a] =>
    destruct (for_each_total f a) as [cols Hcols] end.
  { intros row Hrow. apply for_each_total. intros j Hj.
    rewrite Forall_forall in Ha. rewrite Forall_forall in Hidx.
    destruct (lookup_lt_is_Some_2 row j) as [x ->]; [|eauto].
    rewrite (Ha row Hrow). by apply Hidx. }
  exists cols. split; [done|]. split; [by eapply for_each_length|].
  apply Forall_lookup. intros k c Hc.
  destruct (for_each_lookup_r _ _ _ _ _ Hcols Hc) as (row & _ & Hrow).
  by eapply for_each_length.
Qed.

Section MatrixFurther.
Context {D : Type} `{!Num D, !Gdist D}.
Context {L : Type} `{!LabelReader L}.
Implicit Types (mat : list (list D)) (rois : list string).

(** No region kept: an empty matrix and an empty list of names, without a
    call of the solver. *)
Theorem dist_calc_matrix_no_region (surf : @surface D) (cortex : list Z)
    (labels : L) exceptions :
  mask_ok (length surf.1) cortex = true →
  (∀ a, a ∈ get_freesurfer_label labels → a ∈ exceptions) →
  dist_calc_matrix surf cortex labels exceptions = Ok ([], []).
Proof.
  intros Hok Hall. unfold dist_calc_matrix.
  rewrite (surf_keep_cortex_Ok _ _ Hok). cbn.
  rewrite (np_where_select (λ a, a ∉ exceptions)).
  assert (filter (λ a, a ∉ exceptions) (get_freesurfer_label labels) = [])
    as ->; [|done].
  induction (get_freesurfer_label labels) as [|a l IH]; [done|].
  rewrite filter_cons_False; [|intros Hn; apply Hn, Hall; left].
  apply IH. intros a' Ha'. apply Hall. by right.
Qed.

(** The first loop: one field per region, each of the length of the
    cortex. *)
Lemma region_fields_total `{!GdistLength D} cv ct (cortex : list Z)
    (labels : L) rois :
  (∀ roi v, roi ∈ rois → v ∈ load_freesurfer_label labels roi → v ∈ cortex) →
  ∃ dist_roi,
    for_each (λ roi,
        translated_source_nodes ←
          translate_src (load_freesurfer_label labels roi) cortex;
        mret (compute_gdist cv ct translated_source_nodes)) rois
      = Ok dist_roi
    ∧ length dist_roi = length rois
    ∧ Forall (λ row : list D, length row = length cv) dist_roi.
Proof.
  intros Hin.
  match goal with |- context [for_each ?f rois] =>
    destruct (for_each_total f rois) as [dist_roi Hloop] end.
  { intros roi Hroi.
    destruct (translate_src_total (load_freesurfer_label labels roi) cortex)
      as [t ->]; [eauto|]. cbn. eauto. }
  exists dist_roi. split; [done|]. split; [by eapply for_each_length|].
  apply Forall_lookup. intros k row Hrow.
  destruct (for_each_lookup_r _ _ _ _ _ Hloop Hrow) as (roi & _ & Hf).
  apply bind_Ok in Hf as (t & _ & [= <-]). apply compute_gdist_length.
Qed.

Lemma translate_src_in_range (surf : @surface D) (cortex src : list Z) cv ct t :
  surf_keep_cortex surf cortex = Ok (cv, ct) →
  translate_src src cortex = Ok t →
  length t = length src ∧ Forall (λ j, (j < length cv)%nat) t.
Proof.
  intros [_ Hlen]%surf_keep_cortex_inv Ht.
  split; [by eapply for_each_length|].
  apply Forall_lookup. intros k i Hk.
  destruct (translate_src_lookup _ _ _ _ _ Ht Hk) as (v & _ & Hv).
  rewrite Hlen. by eapply lookup_lt_Some.
Qed.

(** [dist_calc_matrix] returns a matrix as soon as the mask is well formed,
    every region kept has a vertex, all of them in the cortex, and the
    solver returns one distance per vertex. *)
Theorem dist_calc_matrix_returns `{!GdistLength D} (surf : @surface D)
    (cortex : list Z) (labels : L) exceptions :
  mask_ok (length surf.1) cortex = true →
  (∀ roi, roi ∈ get_freesurfer_label labels → roi ∉ exceptions →
     load_freesurfer_label labels roi ≠ []
     ∧ ∀ v, v ∈ load_freesurfer_label labels roi → v ∈ cortex) →
  ∃ mat,
    dist_calc_matrix surf cortex labels exceptions
    = Ok (mat, filter (λ a, a ∉ exceptions) (get_freesurfer_label labels)).
Proof.
  intros Hok Hregions. unfold dist_calc_matrix.
  pose proof (surf_keep_cortex_Ok _ _ Hok) as Hk. rewrite Hk. cbn.
  rewrite (np_where_select (λ a, a ∉ exceptions)).
  set (rois := filter (λ a, a ∉ exceptions) (get_freesurfer_label labels)).
  set (cv := omap (λ v, surf.1 !! Z.to_nat v) cortex) in *.
  set (ct := omap (remap_triangle cortex) surf.2) in *.
  assert (∀ roi, roi ∈ rois →
            load_freesurfer_label labels roi ≠ []
            ∧ ∀ v, v ∈ load_freesurfer_label labels roi → v ∈ cortex) as Hr.
  { intros roi [? ?]%list_elem_of_filter. by apply Hregions. }
  destruct (region_fields_total cv ct cortex labels rois)
    as (dist_roi & -> & Hlen & Hrows); [intros; by eapply Hr|]. cbn.
  rewrite (np_array_homogeneous _ _ Hrows). cbn.
  match goal with |- context [for_each ?f rois] =>
    destruct (for_each_total f rois) as [dist_mat Hloop] end.
  { intros roi Hroi. destruct (Hr roi Hroi) as [Hne Hin].
    destruct (translate_src_total (load_freesurfer_label labels roi) cortex)
      as [t Ht]; [done|]. rewrite Ht. cbn.
    destruct (translate_src_in_range _ _ _ _ _ _ Hk Ht) as [Htl Htr].
    destruct (take_columns_total dist_roi t _ Hrows Htr)
      as (cols & -> & _ & Hcols). cbn.
    apply for_each_total. intros c Hc. apply (np_min_total (D:=D)).
    rewrite Forall_forall in Hcols. specialize (Hcols c Hc).
    intros ->. cbn in Hcols.
    destruct (load_freesurfer_label labels roi); [done|].
    cbn in Htl. lia. }
  rewrite Hloop. cbn.
  rewrite (np_array_homogeneous dist_mat (length rois)); [cbn; eauto|].
  apply Forall_lookup. intros k row Hrow.
  destruct (for_each_lookup_r _ _ _ _ _ Hloop Hrow) as (roi & _ & Hf).
  apply bind_Ok in Hf as (t & Ht & Hf).
  apply bind_Ok in Hf as (cols & Hcols & Hf).
  rewrite (for_each_length _ _ _ Hf), (for_each_length _ _ _ Hcols). done.
Qed.

(** A region kept without any vertex makes [np.min] raise [ValueError]
    (the other regions being in the cortex, and the solver returning one
    distance per vertex). *)
Theorem dist_calc_matrix_empty_region `{!GdistLength D} (surf : @surface D)
    (cortex : list Z) (labels : L) exceptions roi :
  mask_ok (length surf.1) cortex = true →
  (∀ r v, r ∈ get_freesurfer_label labels → r ∉ exceptions →
     v ∈ load_freesurfer_label labels r → v ∈ cortex) →
  roi ∈ get_freesurfer_label labels → roi ∉ exceptions →
  load_freesurfer_label labels roi = [] →
  dist_calc_matrix surf cortex labels exceptions = Raise ValueError.
Proof.
  intros Hok Hin Hroi Hexc Hempty. unfold dist_calc_matrix.
  pose proof (surf_keep_cortex_Ok _ _ Hok) as Hk. rewrite Hk. cbn.
  rewrite (np_where_select (λ a, a ∉ exceptions)).
  set (rois := filter (λ a, a ∉ exceptions) (get_freesurfer_label labels)).
  set (cv := omap (λ v, surf.1 !! Z.to_nat v) cortex) in *.
  set (ct := omap (remap_triangle cortex) surf.2) in *.
  assert (roi ∈ rois) as Hroi' by (by apply list_elem_of_filter).
  destruct (region_fields_total cv ct cortex labels rois)
    as (dist_roi & -> & Hlen & Hrows).
  { intros r v [? ?]%list_elem_of_filter. by apply Hin. }
  cbn. rewrite (np_array_homogeneous _ _ Hrows). cbn.
  erewrite for_each_Raise_within; [done|exact Hroi'|..].
  - rewrite Hempty. cbn.
    destruct dist_roi as [|row dist_roi].
    + apply list_elem_of_lookup in Hroi' as [k Hk'%lookup_lt_Some].
      cbn in Hlen. lia.
    + cbn.
      destruct (for_each_total (λ _ : list D, Ok (@nil D)) dist_roi)
        as [ys ->]; [eauto|]. done.
  - intros r e Hr He.
    apply list_elem_of_filter in Hr as [Hr1 Hr2].
    destruct (translate_src_total (load_freesurfer_label labels r) cortex)
      as [t Ht]; [intros v; by apply Hin|]. rewrite Ht in He. cbn in He.
    destruct (translate_src_in_range _ _ _ _ _ _ Hk Ht) as [_ Htr].
    destruct (take_columns_total dist_roi t _ Hrows Htr)
      as (cols & Hcols & _ & _). rewrite Hcols in He. cbn in He.
    clear -He. induction cols as [|c cols IH]; [done|]. cbn in He.
    destruct c as [|x c]; cbn in He; [by injection He as <-|].
    destruct (for_each np_min cols); cbn in He; [done|].
    injection He as <-. by apply IH.
Qed.
End MatrixFurther.

Section MatrixComposition.
Context {D : Type} `{!Num D, !Gdist D}.
Context `{!PartialOrder (le (D:=D)), !Total (le (D:=D))}.
Context `{!GdistLength D}.
Context {L : Type} `{!LabelReader L}.
Implicit Types (mat : list (list D)) (rois : list string).

(** [dist_calc_matrix] against [dist_calc]: entry [(a, b)] is the least
    value that [dist_calc] from the vertices of region [b] takes on a
    vertex of region [a]. *)
Theorem dist_calc_matrix_dist_calc (surf : @surface D) (cortex : list Z)
    (labels : L) exceptions mat rois :
  dist_calc_matrix surf cortex labels exceptions = Ok (mat, rois) →
  ∀ a b ra rb, rois !! a = Some ra → rois !! b = Some rb →
    ∃ e dist,
      entry mat a b = Some e
      ∧ dist_calc surf cortex (load_freesurfer_label labels rb) = Ok dist
      ∧ (∃ v, v ∈ load_freesurfer_label labels ra
              ∧ dist !! Z.to_nat v = Some e)
      ∧ (∀ v x, v ∈ load_freesurfer_label labels ra →
           dist !! Z.to_nat v = Some x → le e x).
Proof.
  intros (_ & _ & cv & ct & Hk & Hent)%dist_calc_matrix_run a b ra rb Ha Hb.
  destruct (Hent a b ra rb Ha Hb)
    as (ta & tb & row & vals & e & Hta & Htb & Hrow & _ & He & Hvals & Hmin).
  destruct (surf_keep_cortex_inv _ _ _ _ Hk) as [Hok Hlen].
  set (field := compute_gdist cv ct tb) in *.
  assert (length field = length cortex) as Hfl
    by (unfold field; by rewrite compute_gdist_length).
  destruct (recort_spec zero field surf cortex Hok Hfl) as (_ & Hproj & _).
  exists e, (recort zero field surf cortex).
  split; [by unfold entry; rewrite Hrow|].
  split; [unfold dist_calc; rewrite Hk; cbn; by rewrite Htb|].
  apply np_min_Ok in Hmin as [_ [Hin Hle]]. split.
  - apply list_elem_of_lookup in Hin as [k Hk'].
    destruct (Forall2_lookup_r _ _ _ _ _ Hvals Hk') as (i & Hi & Hfi).
    destruct (translate_src_lookup _ _ _ _ _ Hta Hi) as (v & Hv & Hci).
    exists v. split; [by eapply list_elem_of_lookup_2|].
    by rewrite (Hproj i v Hci).
  - intros v x [k Hv]%list_elem_of_lookup Hx.
    destruct (for_each_lookup _ _ _ _ _ Hta Hv) as (i & Hi & Hloc).
    destruct (local_index cortex v) as [i'|] eqn:Hli; [|done].
    injection Hloc as ->. apply local_index_Some in Hli.
    rewrite (Hproj i v Hli) in Hx.
    destruct (Forall2_lookup_l _ _ _ _ _ Hvals Hi) as (x' & Hx' & Hfx).
    rewrite Hx in Hfx. injection Hfx as <-.
    apply Hle. by eapply list_elem_of_lookup_2.
Qed.
End MatrixComposition.

(** ** A stable argsort *)

Section StableArgsort.
Context {D : Type} `{!Num D, !PartialOrder (le (D:=D)), !Total (le (D:=D))}.
Context (l : list D).

(** By key, and by index among equal keys. *)
Let by_key_index (a b : nat) : Prop :=
  ∀ x y, l !! a = Some x → l !! b = Some y →
    le x y ∧ (x = y → (a < b)%nat).

Let stable_before (x y : D) : bool := bool_decide (le x y).

Lemma insert_index_stable a ord :
  (a < length l)%nat →
  Forall (λ b, (a < b < length l)%nat) ord →
  StronglySorted by_key_index ord →
  StronglySorted by_key_index (insert_index stable_before l a ord).
Proof.
  intros Ha Hr Hs. induction Hs as [|b ord Hs IH Hb]; cbn.
  - repeat constructor.
  - apply Forall_cons in Hr as [Hbl Hr].
    destruct (lookup_lt_is_Some_2 l a Ha) as [xa Hxa].
    destruct (lookup_lt_is_Some_2 l b) as [xb Hxb]; [lia|].
    unfold goes_before. rewrite Hxa, Hxb. unfold stable_before.
    destruct (bool_decide (le xa xb)) eqn:Hcmp.
    + apply bool_decide_eq_true_1 in Hcmp.
      constructor; [by constructor|]. constructor.
      * intros x y Hx Hy. simplify_eq. split; [done|lia].
      * rewrite Forall_forall in Hb, Hr. apply Forall_forall.
        intros c Hc x z Hx Hz. simplify_eq.
        destruct (Hb c Hc xb z Hxb Hz) as [Hbz _].
        pose proof (Hr c Hc). split; [by trans xb|lia].
    + apply bool_decide_eq_false_1 in Hcmp.
      constructor; [by apply IH|].
      rewrite insert_index_perm. constructor; [|done].
      intros x y Hx Hy. rewrite Hxb in Hx. rewrite Hxa in Hy.
      injection Hx as <-. injection Hy as <-. split.
      * by destruct (total le xa xb).
      * intros ->. by destruct Hcmp.
Qed.

Lemma insertion_argsort_stable_sorted :
  StronglySorted by_key_index (insertion_argsort stable_before l).
Proof.
  unfold insertion_argsort.
  assert (∀ s n, (s + n ≤ length l)%nat →
    StronglySorted by_key_index
      (foldr (insert_index stable_before l) [] (seq s n))
    ∧ Forall (λ b, (s ≤ b < length l)%nat)
        (foldr (insert_index stable_before l) [] (seq s n))) as Hgen.
  { intros s n. revert s. induction n as [|n IH]; intros s Hsn; cbn.
    - split; constructor.
    - destruct (IH (S s)) as [Hs Hr]; [lia|]. split.
      + apply insert_index_stable; [lia| |done].
        eapply Forall_impl; [exact Hr|]. cbn. lia.
      + rewrite insert_index_perm. constructor; [lia|].
        eapply Forall_impl; [exact Hr|]. cbn. lia. }
  by destruct (Hgen 0%nat (length l)).
Qed.
End StableArgsort.

Lemma argsort_stable_stable {D} `{!Num D, !PartialOrder (le (D:=D)),
    !Total (le (D:=D))} : @ArgsortStable D _ argsort_stable.
Proof.
  intros l i j a b x Hij Hi Hj Hx Hy. cbn in Hi, Hj.
  pose proof (StronglySorted_lookup_lt _ _ i j a b
                (insertion_argsort_stable_sorted l) Hij Hi Hj x x Hx Hy)
    as [_ Hlt]. by apply Hlt.
Qed.

(** ** The further theorems on the line surface *)

Section FurtherRuns.
#[local] Existing Instance Line.num.
#[local] Existing Instance Line.solver.
#[local] Existing Instance Line.argsort.
#[local] Existing Instance Line.labels.

Lemma line_cortex_elem (v : Z) : v ∈ Line.cortex ↔ v = 0 ∨ v = 1 ∨ v = 2.
Proof.
  unfold Line.cortex. rewrite !elem_of_cons.
  pose proof (not_elem_of_nil v). tauto.
Qed.

Lemma line_keep_cortex :
  surf_keep_cortex Line.surf Line.cortex
  = Ok ([(0, 0, 0); (2, 0, 0); (1, 0, 0)], [(0, 1, 2)%nat]).
Proof. vm_compute. reflexivity. Qed.

Lemma line_seed_fields :
  seed_fields [(0, 0, 0); (2, 0, 0); (1, 0, 0)] [(0, 1, 2)%nat]
    Line.cortex [[0]; [1]] = Ok [[0; 2; 1]; [2; 0; 1]].
Proof. vm_compute. reflexivity. Qed.

Lemma line_solver_length : GdistLength Z.
Proof. apply (reference_solver_length (D:=Z)). Qed.

Lemma line_argsort_stable : ArgsortStable Z.
Proof. apply (argsort_stable_stable (D:=Z)). Qed.

(** Vertex 0 is at distance 0 from seed set 1 and 2 from seed set 2. *)
Lemma zone_calc_strictly_nearest_witness :
  zone_calc Line.surf Line.cortex [[0]; [1]] = Ok [1; 2; 1; 0]%nat
  ∧ [1; 2; 1; 0]%nat !! Z.to_nat 0 = Some 1%nat.
Proof.
  split; [exact line_zone_run|].
  apply (zone_calc_strictly_nearest (ArgsortSpec0:=line_argsort_spec)
           Line.surf Line.cortex [[0]; [1]] _ _ _ _ 0%nat 0 0%nat 0
           line_zone_run line_keep_cortex line_seed_fields);
    [reflexivity..|].
  intros [|[|y]] dy Hy Hdy; [done| |done].
  injection Hdy as <-. cbn. lia.
Defined.

Lemma zone_calc_dist_calc_witness :
  zone_calc Line.surf Line.cortex [[0]; [1]] = Ok [1; 2; 1; 0]%nat
  ∧ ∀ i c, Line.cortex !! i = Some c →
      ∃ a s dist d,
        [1; 2; 1; 0]%nat !! Z.to_nat c = Some (S a)
        ∧ [[0]; [1]] !! a = Some s
        ∧ dist_calc Line.surf Line.cortex s = Ok dist
        ∧ dist !! Z.to_nat c = Some d
        ∧ ∀ y s' dist' d',
            [[0]; [1]] !! y = Some s' →
            dist_calc Line.surf Line.cortex s' = Ok dist' →
            dist' !! Z.to_nat c = Some d' → d ≤ d'.
Proof.
  split; [exact line_zone_run|].
  apply (zone_calc_dist_calc (ArgsortSpec0:=line_argsort_spec)
           (GdistLength0:=line_solver_length)
           Line.surf Line.cortex [[0]; [1]] _ line_zone_run).
Defined.

Lemma zone_calc_returns_witness :
  mask_ok (length Line.surf.1) Line.cortex = true
  ∧ ∃ zone, zone_calc Line.surf Line.cortex [[0]; [1]] = Ok zone.
Proof.
  split; [reflexivity|].
  apply (zone_calc_returns (GdistLength0:=line_solver_length)
           Line.surf Line.cortex [[0]; [1]]); [reflexivity|done|].
  intros s v Hs Hv. apply line_cortex_elem.
  apply elem_of_cons in Hs as [->|Hs].
  - apply list_elem_of_singleton in Hv as ->. auto.
  - apply list_elem_of_singleton in Hs as ->.
    apply list_elem_of_singleton in Hv as ->. auto.
Defined.

Lemma zone_calc_stable_ties_witness :
  zone_calc Line.surf Line.cortex [[0]; [1]] = Ok [1; 2; 1; 0]%nat
  ∧ lowest_index_on_ties Line.surf Line.cortex [[0]; [1]].
Proof.
  split; [exact line_zone_run|].
  apply (zone_calc_stable_ties (ArgsortSpec0:=line_argsort_spec)
           (ArgsortStable0:=line_argsort_stable)).
Defined.

Lemma dist_calc_matrix_no_region_witness :
  dist_calc_matrix Line.surf Line.cortex tt
    ["Unknown"; "left"; "Medial_wall"; "right"]%string = Ok ([], []).
Proof.
  apply (dist_calc_matrix_no_region Line.surf Line.cortex tt); [reflexivity|].
  intros a Ha. exact Ha.
Defined.

Lemma line_label_elem (roi : string) :
  roi ∈ get_freesurfer_label tt → roi ∉ default_exceptions →
  roi = "left"%string ∨ roi = "right"%string.
Proof.
  cbn. unfold default_exceptions. rewrite !elem_of_cons.
  pose proof (not_elem_of_nil roi). tauto.
Qed.

Lemma dist_calc_matrix_returns_witness :
  mask_ok (length Line.surf.1) Line.cortex = true
  ∧ ∃ mat, dist_calc_matrix Line.surf Line.cortex tt default_exceptions
           = Ok (mat, filter (λ a, a ∉ default_exceptions)
                        (get_freesurfer_label tt)).
Proof.
  split; [reflexivity|].
  apply (dist_calc_matrix_returns (GdistLength0:=line_solver_length)
           Line.surf Line.cortex tt default_exceptions); [reflexivity|].
  intros roi Hroi Hexc.
  destruct (line_label_elem roi Hroi Hexc) as [-> | ->]; (split; [done|]);
    intros v Hv; apply line_cortex_elem; cbn in Hv;
    repeat (apply elem_of_cons in Hv as [->|Hv]); auto;
    by apply elem_of_nil in Hv.
Defined.

Lemma dist_calc_matrix_empty_region_witness :
  @dist_calc_matrix Z Line.num Line.solver unit Line.labels_hollow
    Line.surf Line.cortex tt default_exceptions = Raise ValueError.
Proof.
  apply (dist_calc_matrix_empty_region (LabelReader0:=Line.labels_hollow)
           (GdistLength0:=line_solver_length)
           Line.surf Line.cortex tt default_exceptions "hollow"%string);
    [reflexivity| |right; left| |reflexivity].
  - intros r v Hr _ Hv. apply line_cortex_elem. cbn in Hr, Hv.
    apply elem_of_cons in Hr as [->|Hr].
    + cbn in Hv. apply list_elem_of_singleton in Hv as ->. auto.
    + apply list_elem_of_singleton in Hr as ->. cbn in Hv.
      by apply elem_of_nil in Hv.
  - unfold default_exceptions. rewrite !not_elem_of_cons.
    split_and!; [done..|apply not_elem_of_nil].
Defined.

Lemma dist_calc_matrix_dist_calc_witness :
  dist_calc_matrix Line.surf Line.cortex tt default_exceptions
    = Ok ([[0; 1]; [1; 0]], ["left"; "right"]%string)
  ∧ ∀ a b ra rb,
      ["left"; "right"]%string !! a = Some ra →
      ["left"; "right"]%string !! b = Some rb →
      ∃ e dist,
        entry [[0; 1]; [1; 0]] a b = Some e
        ∧ dist_calc Line.surf Line.cortex (load_freesurfer_label tt rb) = Ok dist
        ∧ (∃ v, v ∈ load_freesurfer_label tt ra ∧ dist !! Z.to_nat v = Some e)
        ∧ (∀ v x, v ∈ load_freesurfer_label tt ra →
             dist !! Z.to_nat v = Some x → e ≤ x).
Proof.
  split; [exact line_matrix_run|].
  apply (dist_calc_matrix_dist_calc (GdistLength0:=line_solver_length)
           Line.surf Line.cortex tt default_exceptions _ _ line_matrix_run).
Defined.
End FurtherRuns.

(** * Ties and rounding *)

(** ** The entries of the matrix, as computed *)

Lemma np_min_elem {D} `{!Num D} (l : list D) e : np_min l = Ok e → e ∈ l.
Proof.
  destruct l as [|x l]; [done|]. intros [= <-]. revert x.
  induction l as [|y l IH]; intros x; [left|]. cbn [foldl].
  specialize (IH (dmin x y)). apply elem_of_cons in IH as [->|IH].
  - unfold dmin. destruct (decide (le x y)); [left|right; left].
  - by do 2 right.
Qed.

Section MatrixRows.
Context {D : Type} `{!Num D, !Gdist D}.
Context {L : Type} `{!LabelReader L}.
Implicit Types (mat : list (list D)) (rois : list string).


(** The diagonal is zero when the solver returns zero at its sources. *)
Theorem dist_calc_matrix_diagonal `{!GdistSources D}
    (surf : @surface D) (cortex : list Z) (labels : L) exceptions mat rois a :
  dist_calc_matrix surf cortex labels exceptions = Ok (mat, rois) →
  (a < length rois)%nat →
  entry mat a a = Some zero.
Proof.
  intros (_ & _ & cv & ct & Hk & Hent)%dist_calc_matrix_run Ha.
  destruct (lookup_lt_is_Some_2 _ _ Ha) as [ra Hra].
  destruct (Hent a a ra ra Hra Hra)
    as (ta & tb & row & vals & e & Hta & Htb & Hrow & _ & He & Hvals & Hmin).
  rewrite Hta in Htb. injection Htb as <-.
  unfold entry. rewrite Hrow. cbn. rewrite He. f_equal.
  apply np_min_elem, list_elem_of_lookup in Hmin as [k Hk'].
  destruct (Forall2_lookup_r _ _ _ _ _ Hvals Hk') as (v & Hv & Hfv).
  destruct (translate_src_lookup _ _ _ _ _ Hta Hv) as (w & _ & Hw).
  rewrite compute_gdist_source in Hfv.
  - by injection Hfv.
  - by eapply list_elem_of_lookup_2.
  - destruct (surf_keep_cortex_inv _ _ _ _ Hk) as [_ ->].
    by eapply lookup_lt_Some.
Qed.
End MatrixRows.

Section RoundingRuns.
#[local] Existing Instance Line.num.
#[local] Existing Instance Line.solver.
#[local] Existing Instance Line.labels.


Lemma line_solver_sources : GdistSources Z.
Proof.
  intros vs ts src v Hv Hlt. cbn. unfold solver_field.
  rewrite list_lookup_fmap, lookup_seq_lt by done. cbn. f_equal.
  destruct src as [|u us]; [done|].
  destruct (foldl_dmin (D:=Z) (Line.geo vs ts u v)
              (map (λ u', Line.geo vs ts u' v) us)) as [Hin Hle].
  assert (∀ u', 0 ≤ Line.geo vs ts u' v) as Hnn.
  { intros u'. unfold Line.geo.
    destruct (vs !! u') as [[[? ?] ?]|], (vs !! v) as [[[? ?] ?]|]; lia. }
  assert (Line.geo vs ts v v = 0) as Hself.
  { unfold Line.geo. destruct (vs !! v) as [[[? ?] ?]|]; lia. }
  apply (anti_symm Z.le).
  - rewrite <- Hself. apply Hle.
    change (Line.geo vs ts u v :: map (λ u', Line.geo vs ts u' v) us)
      with (map (λ u', Line.geo vs ts u' v) (u :: us)).
    apply list_elem_of_fmap. eauto.
  - change (Line.geo vs ts u v :: map (λ u', Line.geo vs ts u' v) us)
      with (map (λ u', Line.geo vs ts u' v) (u :: us)) in Hin.
    apply list_elem_of_fmap in Hin as (u' & -> & _). apply Hnn.
Qed.

Lemma dist_calc_matrix_diagonal_witness :
  dist_calc_matrix Line.surf Line.cortex tt default_exceptions
    = Ok ([[0; 1]; [1; 0]], ["left"; "right"]%string)
  ∧ entry [[0; 1]; [1; 0]] 1 1 = Some 0.
Proof.
  split; [exact line_matrix_run|].
  apply (dist_calc_matrix_diagonal (GdistSources0:=line_solver_sources)
           Line.surf Line.cortex tt default_exceptions _ _ 1%nat
           line_matrix_run). cbn. lia.
Defined.
End RoundingRuns.

Section FloatRuns.
#[local] Existing Instance IEEE.num.
#[local] Existing Instance Line.labels.



(** C1 as stated fails once there are enough seed sets for numpy's sort
    to partition a column.  Here, of twenty seed sets the 2nd and the 10th
    are the same vertex, at distance 1 from vertex 0, and the others are at
    distance 2: the sort puts index 9 first in the column of vertex 0,
    which is given to seed set 10 and not to seed set 2. *)
Lemma zone_calc_tie_not_lowest :
  @zone_calc _ IEEE.solver Float.argsort
    Float.wedge Float.wedge_cortex Float.wedge_seeds = Ok [10; 10; 1]%nat
  ∧ ¬ @lowest_index_on_ties _ IEEE.num IEEE.solver Float.argsort
        Float.wedge Float.wedge_cortex Float.wedge_seeds.
Proof.
  assert (@zone_calc _ IEEE.solver Float.argsort
            Float.wedge Float.wedge_cortex Float.wedge_seeds
          = Ok [10; 10; 1]%nat) as Hrun by (vm_compute; reflexivity).
  split; [exact Hrun|]. intros H.
  assert (∃ dist_vals,
            @seed_fields _ IEEE.solver Float.wedge.1 [(0, 1, 2)%nat]
              Float.wedge_cortex Float.wedge_seeds = Ok dist_vals
            ∧ entry dist_vals 9 0 = Some Float.f1
            ∧ entry dist_vals 1 0 = Some Float.f1)
    as (dist_vals & Hfields & H9 & H1).
  { eexists. split; [vm_compute; reflexivity|]. split; vm_compute; reflexivity. }
  refine (H _ _ _ dist_vals Hrun _ Hfields 0%nat 0 9%nat 1%nat Float.f1
            _ _ _ H9 H1); [vm_compute; reflexivity|reflexivity|reflexivity|lia].
Qed.
End FloatRuns.
